(** * CIndexStoreDB: the C query facade of IndexStoreDB

    A shallow embedding of [include/CIndexStoreDB/CIndexStoreDB.h] and
    [lib/CIndexStoreDB/CIndexStoreDB.cpp].

    - C enumerations are integer constants ([Z]); [1 << n] is the shift of
      the C type [int], which has a value only for some shift counts.
    - [void *] handles are addresses ([N], the null pointer is [0]); the C++
      heap is a finite map from addresses to cells.
    - Functions that touch the heap or call a caller-supplied block run in a
      small monad [M]: state passing, a fault for undefined behaviour, and a
      log of the block invocations made.
    - The index collaborator ([IndexSystem]) is not part of these two files;
      its queries are modelled from the specification and marked as such. *)

From Stdlib Require Import ZArith NArith Ascii String.
From stdpp Require Import base numbers option list gmap strings.

Local Open Scope Z_scope.

(** ** C integer shifts *)

Module CInt.

(** Width of [int] on every ABI the library is built for. *)
Definition int_bits : Z := 32.

(** [E1 << E2] at type [int] (C11 6.5.7): undefined when [E2] is negative
    or not smaller than the width, or when [E1 * 2^E2] is not
    representable; [None] stands for "no defined value". *)
Definition shl (E1 E2 : Z) : option Z :=
  if decide (0 ≤ E2 < int_bits ∧ 0 ≤ E1 ∧ E1 * 2 ^ E2 < 2 ^ (int_bits - 1))
  then Some (Z.shiftl E1 E2)
  else None.

(** A value returned at type [int]: unchanged when an [int] can hold it,
    and otherwise reduced modulo [2^int_bits] into the range of [int]. *)
Definition to_int (z : Z) : Z :=
  (z + 2 ^ (int_bits - 1)) mod 2 ^ int_bits - 2 ^ (int_bits - 1).

End CInt.

(** ** [indexstoredb_symbol_role_t] *)

Inductive indexstoredb_symbol_role_t : Set :=
  | INDEXSTOREDB_SYMBOL_ROLE_DECLARATION
  | INDEXSTOREDB_SYMBOL_ROLE_DEFINITION
  | INDEXSTOREDB_SYMBOL_ROLE_REFERENCE
  | INDEXSTOREDB_SYMBOL_ROLE_READ
  | INDEXSTOREDB_SYMBOL_ROLE_WRITE
  | INDEXSTOREDB_SYMBOL_ROLE_CALL
  | INDEXSTOREDB_SYMBOL_ROLE_DYNAMIC
  | INDEXSTOREDB_SYMBOL_ROLE_ADDRESSOF
  | INDEXSTOREDB_SYMBOL_ROLE_IMPLICIT
  | INDEXSTOREDB_SYMBOL_ROLE_REL_CHILDOF
  | INDEXSTOREDB_SYMBOL_ROLE_REL_BASEOF
  | INDEXSTOREDB_SYMBOL_ROLE_REL_OVERRIDEOF
  | INDEXSTOREDB_SYMBOL_ROLE_REL_RECEIVEDBY
  | INDEXSTOREDB_SYMBOL_ROLE_REL_CALLEDBY
  | INDEXSTOREDB_SYMBOL_ROLE_REL_EXTENDEDBY
  | INDEXSTOREDB_SYMBOL_ROLE_REL_ACCESSOROF
  | INDEXSTOREDB_SYMBOL_ROLE_REL_CONTAINEDBY
  | INDEXSTOREDB_SYMBOL_ROLE_REL_IBTYPEOF
  | INDEXSTOREDB_SYMBOL_ROLE_REL_SPECIALIZATIONOF
  | INDEXSTOREDB_SYMBOL_ROLE_CANONICAL.

#[global] Instance indexstoredb_symbol_role_eq_dec :
  EqDecision indexstoredb_symbol_role_t.
Proof. solve_decision. Defined.

(** The right operand of the enumerator's initialiser [1 << n]. *)
Definition role_shift (r : indexstoredb_symbol_role_t) : Z :=
  match r with
  | INDEXSTOREDB_SYMBOL_ROLE_DECLARATION => 0
  | INDEXSTOREDB_SYMBOL_ROLE_DEFINITION => 1
  | INDEXSTOREDB_SYMBOL_ROLE_REFERENCE => 2
  | INDEXSTOREDB_SYMBOL_ROLE_READ => 3
  | INDEXSTOREDB_SYMBOL_ROLE_WRITE => 4
  | INDEXSTOREDB_SYMBOL_ROLE_CALL => 5
  | INDEXSTOREDB_SYMBOL_ROLE_DYNAMIC => 6
  | INDEXSTOREDB_SYMBOL_ROLE_ADDRESSOF => 7
  | INDEXSTOREDB_SYMBOL_ROLE_IMPLICIT => 8
  | INDEXSTOREDB_SYMBOL_ROLE_REL_CHILDOF => 9
  | INDEXSTOREDB_SYMBOL_ROLE_REL_BASEOF => 10
  | INDEXSTOREDB_SYMBOL_ROLE_REL_OVERRIDEOF => 11
  | INDEXSTOREDB_SYMBOL_ROLE_REL_RECEIVEDBY => 12
  | INDEXSTOREDB_SYMBOL_ROLE_REL_CALLEDBY => 13
  | INDEXSTOREDB_SYMBOL_ROLE_REL_EXTENDEDBY => 14
  | INDEXSTOREDB_SYMBOL_ROLE_REL_ACCESSOROF => 15
  | INDEXSTOREDB_SYMBOL_ROLE_REL_CONTAINEDBY => 16
  | INDEXSTOREDB_SYMBOL_ROLE_REL_IBTYPEOF => 17
  | INDEXSTOREDB_SYMBOL_ROLE_REL_SPECIALIZATIONOF => 18
  | INDEXSTOREDB_SYMBOL_ROLE_CANONICAL => 63
  end.

(** The enumerator's value: the initialiser [1 << n] evaluated at [int]. *)
Definition role_value (r : indexstoredb_symbol_role_t) : option Z :=
  CInt.shl 1 (role_shift r).

(** The header lists the enumerators in three groups: the plain roles, the
    ones under the comment "Relation roles.", and the canonical flag. *)
Definition occurrence_roles : list indexstoredb_symbol_role_t :=
  [ INDEXSTOREDB_SYMBOL_ROLE_DECLARATION; INDEXSTOREDB_SYMBOL_ROLE_DEFINITION;
    INDEXSTOREDB_SYMBOL_ROLE_REFERENCE; INDEXSTOREDB_SYMBOL_ROLE_READ;
    INDEXSTOREDB_SYMBOL_ROLE_WRITE; INDEXSTOREDB_SYMBOL_ROLE_CALL;
    INDEXSTOREDB_SYMBOL_ROLE_DYNAMIC; INDEXSTOREDB_SYMBOL_ROLE_ADDRESSOF;
    INDEXSTOREDB_SYMBOL_ROLE_IMPLICIT ].

Definition relation_roles : list indexstoredb_symbol_role_t :=
  [ INDEXSTOREDB_SYMBOL_ROLE_REL_CHILDOF; INDEXSTOREDB_SYMBOL_ROLE_REL_BASEOF;
    INDEXSTOREDB_SYMBOL_ROLE_REL_OVERRIDEOF;
    INDEXSTOREDB_SYMBOL_ROLE_REL_RECEIVEDBY;
    INDEXSTOREDB_SYMBOL_ROLE_REL_CALLEDBY;
    INDEXSTOREDB_SYMBOL_ROLE_REL_EXTENDEDBY;
    INDEXSTOREDB_SYMBOL_ROLE_REL_ACCESSOROF;
    INDEXSTOREDB_SYMBOL_ROLE_REL_CONTAINEDBY;
    INDEXSTOREDB_SYMBOL_ROLE_REL_IBTYPEOF;
    INDEXSTOREDB_SYMBOL_ROLE_REL_SPECIALIZATIONOF ].

(** A flag [r] "occupies bit [k]": its value is defined and has exactly
    bit [k] set. *)
Definition occupies_bit (r : indexstoredb_symbol_role_t) (k : Z) : Prop :=
  role_value r = Some (Z.shiftl 1 k).

(** The layout as the specification words it: occurrence roles in bits
    0..8, every relation role in bits 9..17, the canonical flag at bit 63,
    and no occurrence bit shared with a relation bit. *)
Definition spec_role_layout : Prop :=
  (∀ k, 0 ≤ k ≤ 8 → ∃ r, r ∈ occurrence_roles ∧ occupies_bit r k) ∧
  (∀ r, r ∈ occurrence_roles → ∃ k, 0 ≤ k ≤ 8 ∧ occupies_bit r k) ∧
  (∀ r, r ∈ relation_roles → ∃ k, 9 ≤ k ≤ 17 ∧ occupies_bit r k) ∧
  occupies_bit INDEXSTOREDB_SYMBOL_ROLE_CANONICAL 63 ∧
  (∀ r1 r2 k, r1 ∈ occurrence_roles → r2 ∈ relation_roles →
              occupies_bit r1 k → ¬ occupies_bit r2 k).

(** ** [indexstoredb_symbol_kind_t] *)

Definition indexstoredb_symbol_kind_t : Set := Z.

Definition INDEXSTOREDB_SYMBOL_KIND_UNKNOWN : indexstoredb_symbol_kind_t := 0.
Definition INDEXSTOREDB_SYMBOL_KIND_MODULE : indexstoredb_symbol_kind_t := 1.
Definition INDEXSTOREDB_SYMBOL_KIND_NAMESPACE : indexstoredb_symbol_kind_t := 2.
Definition INDEXSTOREDB_SYMBOL_KIND_NAMESPACEALIAS : indexstoredb_symbol_kind_t := 3.
Definition INDEXSTOREDB_SYMBOL_KIND_MACRO : indexstoredb_symbol_kind_t := 4.
Definition INDEXSTOREDB_SYMBOL_KIND_ENUM : indexstoredb_symbol_kind_t := 5.
Definition INDEXSTOREDB_SYMBOL_KIND_STRUCT : indexstoredb_symbol_kind_t := 6.
Definition INDEXSTOREDB_SYMBOL_KIND_CLASS : indexstoredb_symbol_kind_t := 7.
Definition INDEXSTOREDB_SYMBOL_KIND_PROTOCOL : indexstoredb_symbol_kind_t := 8.
Definition INDEXSTOREDB_SYMBOL_KIND_EXTENSION : indexstoredb_symbol_kind_t := 9.
Definition INDEXSTOREDB_SYMBOL_KIND_UNION : indexstoredb_symbol_kind_t := 10.
Definition INDEXSTOREDB_SYMBOL_KIND_TYPEALIAS : indexstoredb_symbol_kind_t := 11.
Definition INDEXSTOREDB_SYMBOL_KIND_FUNCTION : indexstoredb_symbol_kind_t := 12.
Definition INDEXSTOREDB_SYMBOL_KIND_VARIABLE : indexstoredb_symbol_kind_t := 13.
Definition INDEXSTOREDB_SYMBOL_KIND_FIELD : indexstoredb_symbol_kind_t := 14.
Definition INDEXSTOREDB_SYMBOL_KIND_ENUMCONSTANT : indexstoredb_symbol_kind_t := 15.
Definition INDEXSTOREDB_SYMBOL_KIND_INSTANCEMETHOD : indexstoredb_symbol_kind_t := 16.
Definition INDEXSTOREDB_SYMBOL_KIND_CLASSMETHOD : indexstoredb_symbol_kind_t := 17.
Definition INDEXSTOREDB_SYMBOL_KIND_STATICMETHOD : indexstoredb_symbol_kind_t := 18.
Definition INDEXSTOREDB_SYMBOL_KIND_INSTANCEPROPERTY : indexstoredb_symbol_kind_t := 19.
Definition INDEXSTOREDB_SYMBOL_KIND_CLASSPROPERTY : indexstoredb_symbol_kind_t := 20.
Definition INDEXSTOREDB_SYMBOL_KIND_STATICPROPERTY : indexstoredb_symbol_kind_t := 21.
Definition INDEXSTOREDB_SYMBOL_KIND_CONSTRUCTOR : indexstoredb_symbol_kind_t := 22.
Definition INDEXSTOREDB_SYMBOL_KIND_DESTRUCTOR : indexstoredb_symbol_kind_t := 23.
Definition INDEXSTOREDB_SYMBOL_KIND_CONVERSIONFUNCTION : indexstoredb_symbol_kind_t := 24.
Definition INDEXSTOREDB_SYMBOL_KIND_PARAMETER : indexstoredb_symbol_kind_t := 25.
Definition INDEXSTOREDB_SYMBOL_KIND_USING : indexstoredb_symbol_kind_t := 26.
Definition INDEXSTOREDB_SYMBOL_KIND_COMMENTTAG : indexstoredb_symbol_kind_t := 1000.

(** Modelled from the spec: the internal enumeration [SymbolKind] is
    declared in [IndexStoreDB/Core/Symbol.h], which is not among the sources.
    Its enumerators are the case labels of [toCSymbolKind], plus [Using]
    for which the public header reserves a constant, plus [SK_Unlisted] for
    any further enumerator the switch has no case for (the spec's "etc."
    in its list of kinds). *)
Inductive SymbolKind : Set :=
  | SK_Unknown | SK_Module | SK_Namespace | SK_NamespaceAlias | SK_Macro
  | SK_Enum | SK_Struct | SK_Class | SK_Protocol | SK_Extension | SK_Union
  | SK_TypeAlias | SK_Function | SK_Variable | SK_Parameter | SK_Field
  | SK_EnumConstant | SK_InstanceMethod | SK_ClassMethod | SK_StaticMethod
  | SK_InstanceProperty | SK_ClassProperty | SK_StaticProperty
  | SK_Constructor | SK_Destructor | SK_ConversionFunction | SK_CommentTag
  | SK_Using
  | SK_Unlisted (raw : N).

Definition toCSymbolKind (K : SymbolKind) : indexstoredb_symbol_kind_t :=
  match K with
  | SK_Unknown => INDEXSTOREDB_SYMBOL_KIND_UNKNOWN
  | SK_Module => INDEXSTOREDB_SYMBOL_KIND_MODULE
  | SK_Namespace => INDEXSTOREDB_SYMBOL_KIND_NAMESPACE
  | SK_NamespaceAlias => INDEXSTOREDB_SYMBOL_KIND_NAMESPACEALIAS
  | SK_Macro => INDEXSTOREDB_SYMBOL_KIND_MACRO
  | SK_Enum => INDEXSTOREDB_SYMBOL_KIND_ENUM
  | SK_Struct => INDEXSTOREDB_SYMBOL_KIND_STRUCT
  | SK_Class => INDEXSTOREDB_SYMBOL_KIND_CLASS
  | SK_Protocol => INDEXSTOREDB_SYMBOL_KIND_PROTOCOL
  | SK_Extension => INDEXSTOREDB_SYMBOL_KIND_EXTENSION
  | SK_Union => INDEXSTOREDB_SYMBOL_KIND_UNION
  | SK_TypeAlias => INDEXSTOREDB_SYMBOL_KIND_TYPEALIAS
  | SK_Function => INDEXSTOREDB_SYMBOL_KIND_FUNCTION
  | SK_Variable => INDEXSTOREDB_SYMBOL_KIND_VARIABLE
  | SK_Parameter => INDEXSTOREDB_SYMBOL_KIND_PARAMETER
  | SK_Field => INDEXSTOREDB_SYMBOL_KIND_FIELD
  | SK_EnumConstant => INDEXSTOREDB_SYMBOL_KIND_ENUMCONSTANT
  | SK_InstanceMethod => INDEXSTOREDB_SYMBOL_KIND_INSTANCEMETHOD
  | SK_ClassMethod => INDEXSTOREDB_SYMBOL_KIND_CLASSMETHOD
  | SK_StaticMethod => INDEXSTOREDB_SYMBOL_KIND_STATICMETHOD
  | SK_InstanceProperty => INDEXSTOREDB_SYMBOL_KIND_INSTANCEPROPERTY
  | SK_ClassProperty => INDEXSTOREDB_SYMBOL_KIND_CLASSPROPERTY
  | SK_StaticProperty => INDEXSTOREDB_SYMBOL_KIND_STATICPROPERTY
  | SK_Constructor => INDEXSTOREDB_SYMBOL_KIND_CONSTRUCTOR
  | SK_Destructor => INDEXSTOREDB_SYMBOL_KIND_DESTRUCTOR
  | SK_ConversionFunction => INDEXSTOREDB_SYMBOL_KIND_CONVERSIONFUNCTION
  | SK_CommentTag => INDEXSTOREDB_SYMBOL_KIND_COMMENTTAG
  | _ => INDEXSTOREDB_SYMBOL_KIND_UNKNOWN
  end.

(** Everything [toCSymbolKind] can return: every constant of the public
    enumeration except [INDEXSTOREDB_SYMBOL_KIND_USING]. *)
Definition symbol_kind_range : list indexstoredb_symbol_kind_t :=
  [ INDEXSTOREDB_SYMBOL_KIND_UNKNOWN; INDEXSTOREDB_SYMBOL_KIND_MODULE;
    INDEXSTOREDB_SYMBOL_KIND_NAMESPACE;
    INDEXSTOREDB_SYMBOL_KIND_NAMESPACEALIAS; INDEXSTOREDB_SYMBOL_KIND_MACRO;
    INDEXSTOREDB_SYMBOL_KIND_ENUM; INDEXSTOREDB_SYMBOL_KIND_STRUCT;
    INDEXSTOREDB_SYMBOL_KIND_CLASS; INDEXSTOREDB_SYMBOL_KIND_PROTOCOL;
    INDEXSTOREDB_SYMBOL_KIND_EXTENSION; INDEXSTOREDB_SYMBOL_KIND_UNION;
    INDEXSTOREDB_SYMBOL_KIND_TYPEALIAS; INDEXSTOREDB_SYMBOL_KIND_FUNCTION;
    INDEXSTOREDB_SYMBOL_KIND_VARIABLE; INDEXSTOREDB_SYMBOL_KIND_FIELD;
    INDEXSTOREDB_SYMBOL_KIND_ENUMCONSTANT;
    INDEXSTOREDB_SYMBOL_KIND_INSTANCEMETHOD;
    INDEXSTOREDB_SYMBOL_KIND_CLASSMETHOD;
    INDEXSTOREDB_SYMBOL_KIND_STATICMETHOD;
    INDEXSTOREDB_SYMBOL_KIND_INSTANCEPROPERTY;
    INDEXSTOREDB_SYMBOL_KIND_CLASSPROPERTY;
    INDEXSTOREDB_SYMBOL_KIND_STATICPROPERTY;
    INDEXSTOREDB_SYMBOL_KIND_CONSTRUCTOR; INDEXSTOREDB_SYMBOL_KIND_DESTRUCTOR;
    INDEXSTOREDB_SYMBOL_KIND_CONVERSIONFUNCTION;
    INDEXSTOREDB_SYMBOL_KIND_PARAMETER; INDEXSTOREDB_SYMBOL_KIND_COMMENTTAG ].

(** ** Data model of the index *)

(** Modelled from the spec: [SymbolLocation], [Symbol], [SymbolRelation] and
    [SymbolOccurrence] are declared in [IndexStoreDB/Core/Symbol.h], which is
    not among the sources.  The records follow section 3 of the
    specification; the projections carry the names of the getters that
    [CIndexStoreDB.cpp] calls.  They are immutable values. *)
Module SymbolLocation.
Record t : Type := mk
  { getPath : string; isSystem : bool; getLine : Z; getColumn : Z }.
End SymbolLocation.

Module Symbol.
Record t : Type := mk
  { getUSR : string; getName : string; getSymbolKind : SymbolKind }.
End Symbol.

Module SymbolRelation.
(** [getRoles] is the raw 64-bit role set ([SymbolRoleSet::toRaw]). *)
Record t : Type := mk { getRoles : N; getSymbol : Symbol.t }.
End SymbolRelation.

Module SymbolOccurrence.
Record t : Type := mk
  { getSymbol : Symbol.t;
    getRoles : N;
    getLocation : SymbolLocation.t;
    getRelations : list SymbolRelation.t }.
End SymbolOccurrence.

(** ** Name matching *)

Module PatternMatching.

(** Modelled from the spec: the matcher behind
    [foreachCanonicalSymbolOccurrenceContainingPattern] lives in the index
    library, which is not among the sources.  The definitions follow
    section 4.3 of the specification: the requested constraints are
    checked one by one and combined conjunctively. *)

Definition to_lower (c : ascii) : ascii :=
  let n := N_of_ascii c in
  if decide (65 ≤ n ≤ 90)%N then ascii_of_N (n + 32) else c.

Definition fold_case (ignoreCase : bool) (s : list ascii) : list ascii :=
  if ignoreCase then to_lower <$> s else s.

(** [p] is a literal prefix of [c]. *)
Fixpoint starts_with (p c : list ascii) : bool :=
  match p, c with
  | [], _ => true
  | _ :: _, [] => false
  | a :: p', b :: c' => bool_decide (a = b) && starts_with p' c'
  end.

(** [p] is a literal suffix of [c]. *)
Definition ends_with (p c : list ascii) : bool :=
  starts_with (reverse p) (reverse c).

(** [p] occurs in [c] as a contiguous substring. *)
Fixpoint contains (p c : list ascii) : bool :=
  starts_with p c ||
  match c with
  | [] => false
  | _ :: c' => contains p c'
  end.

(** The characters of [p] occur in [c] in order. *)
Fixpoint is_subsequence (p c : list ascii) : bool :=
  match p, c with
  | [], _ => true
  | _ :: _, [] => false
  | a :: p', b :: c' =>
      if decide (a = b) then is_subsequence p' c' else is_subsequence p c'
  end.

Definition same_head (p c : list ascii) : bool :=
  bool_decide (head p = head c).

Definition matches (c p : list ascii)
    (anchorStart anchorEnd subsequence : bool) : bool :=
  if subsequence then
    is_subsequence p c
    && (if anchorStart then same_head p c else true)
    && (if anchorEnd then same_head (reverse p) (reverse c) else true)
  else
    contains p c
    && (if anchorStart then starts_with p c else true)
    && (if anchorEnd then ends_with p c else true).

Definition matchesPattern (Input Pattern : string)
    (anchorStart anchorEnd subsequence ignoreCase : bool) : bool :=
  matches (fold_case ignoreCase (list_ascii_of_string Input))
          (fold_case ignoreCase (list_ascii_of_string Pattern))
          anchorStart anchorEnd subsequence.

End PatternMatching.

(** ** The index collaborator: what each query selects *)

Module IndexSystem.
(** Modelled from the spec: the index collaborator, "a store of previously
    extracted symbol occurrences" (section 1), kept in the order in which
    queries stream them.  The class is not among the sources. *)
Record t : Type := mk { occurrences : list SymbolOccurrence.t }.

(** Modelled from the spec: section 4.2, "occurrence must have at least one
    of these bits set", and "a mask of 0 matches everything". *)
Definition matches_roles (roles roleMask : N) : bool :=
  bool_decide (roleMask = 0%N) || negb (N.land roles roleMask =? 0)%N.

(** Modelled from the spec: the canonical flag is bit 63 of the role set. *)
Definition is_canonical (o : SymbolOccurrence.t) : bool :=
  N.testbit (SymbolOccurrence.getRoles o) 63.

Definition has_usr (usr : string) (s : Symbol.t) : bool :=
  bool_decide (Symbol.getUSR s = usr).

Definition at_location (path : string) (line col : Z)
    (l : SymbolLocation.t) : bool :=
  bool_decide (SymbolLocation.getPath l = path)
  && bool_decide (SymbolLocation.getLine l = line)
  && bool_decide (SymbolLocation.getColumn l = col).

(** Modelled from the spec: the six selections of section 4.4, under the
    names the specification gives them. *)
Definition occurrencesByUSR (index : t) (usr : string) (roleMask : N)
    : list SymbolOccurrence.t :=
  filter (λ o, has_usr usr (SymbolOccurrence.getSymbol o)
               && matches_roles (SymbolOccurrence.getRoles o) roleMask)
         (occurrences index).

Definition relatedOccurrencesByUSR (index : t) (usr : string) (roleMask : N)
    : list SymbolOccurrence.t :=
  filter (λ o, existsb (λ r, has_usr usr (SymbolRelation.getSymbol r))
                       (SymbolOccurrence.getRelations o)
               && matches_roles (SymbolOccurrence.getRoles o) roleMask)
         (occurrences index).

Definition occurrencesAtLocation (index : t) (path : string)
    (line utf8Column : Z) (roleMask : N) : list SymbolOccurrence.t :=
  filter (λ o, at_location path line utf8Column
                 (SymbolOccurrence.getLocation o)
               && matches_roles (SymbolOccurrence.getRoles o) roleMask)
         (occurrences index).

Definition allSymbolNames (index : t) : list string :=
  remove_dups ((λ o, Symbol.getName (SymbolOccurrence.getSymbol o))
                 <$> occurrences index).

Definition canonicalOccurrencesByName (index : t) (name : string)
    : list SymbolOccurrence.t :=
  filter (λ o, is_canonical o
               && bool_decide
                    (Symbol.getName (SymbolOccurrence.getSymbol o) = name))
         (occurrences index).

Definition canonicalOccurrencesContainingPattern (index : t)
    (pattern : string) (anchorStart anchorEnd subsequence ignoreCase : bool)
    : list SymbolOccurrence.t :=
  filter (λ o, is_canonical o
               && PatternMatching.matchesPattern
                    (Symbol.getName (SymbolOccurrence.getSymbol o)) pattern
                    anchorStart anchorEnd subsequence ignoreCase)
         (occurrences index).
End IndexSystem.

(** Modelled from the spec: a loaded symbol-store library
    ([IndexStoreLibraryRef]); only its identity matters here. *)
Record IndexStoreLibrary : Type := { dylibPath : string }.

(** ** The heap *)

(** What an [IndexStoreDBObject<T>] holds in its [value] member. *)
Inductive payload : Type :=
  | IndexSystemRef (index : IndexSystem.t)
  | IndexStoreLibraryRef (lib : IndexStoreLibrary)
  | SymbolRef (sym : Symbol.t)
  | SymbolOccurrenceRef (occ : SymbolOccurrence.t)
  | SymbolRelationValue (rel : SymbolRelation.t).

(** What lives at an address: a reference-counted object (the counter is
    the [RefCount] member of its base class), an [IndexStoreDBError], or a
    caller's variable of type [indexstoredb_error_t], the target of the
    [error] out-parameter. *)
Inductive cell : Type :=
  | IndexStoreDBObject (RefCount : Z) (value : payload)
  | IndexStoreDBError (message : string)
  | ErrorVariable (contents : N).

Abbreviation nullptr := 0%N (only parsing).

(** [operator new]: any address that is neither null nor in use. *)
Class Allocator : Type :=
  { new_address : gmap N cell → N;
    new_address_nonnull : ∀ m, new_address m ≠ nullptr;
    new_address_unused : ∀ m, m !! new_address m = None }.

(** An allocator that hands out the least unused address, so that the
    address of a destroyed object is used again. *)
Definition least_unused (m : gmap N cell) : N :=
  fresh ({[ nullptr ]} ∪ dom m).

#[program] Definition first_fit : Allocator :=
  {| new_address := least_unused |}.
Next Obligation.
  intros m Heq. pose proof (is_fresh ({[ nullptr ]} ∪ dom m)) as Hf.
  unfold least_unused in Heq. rewrite Heq in Hf. set_solver.
Qed.
Next Obligation.
  intros m. apply not_elem_of_dom.
  pose proof (is_fresh ({[ nullptr ]} ∪ dom m)) as Hf.
  unfold least_unused. set_solver.
Qed.

(** A borrowed [indexstoredb_symbol_location_t]: the address of the
    [SymbolLocation] stored inside the occurrence that the object at
    [owner] wraps.  It is not an object of its own. *)
Record indexstoredb_symbol_location_t : Set := LocationIn { owner : N }.

(** ** The facade *)

Section Facade.

(** The state that the caller's blocks capture. *)
Context {U : Type}.
Context {allocator : Allocator}.

Record world : Type := World { mem : gmap N cell; user : U }.

(** A block taking a handle ([indexstoredb_symbol_occurrence_receiver_t]
    and the applier of [indexstoredb_symbol_occurrence_relations]) and a
    block taking a C string ([indexstoredb_symbol_name_receiver]).  A
    block may read and change everything the caller can reach. *)
Definition receiver_t : Type := N → world → bool * world.
Definition name_receiver_t : Type := string → world → bool * world.

(** [indexstore_library_provider_t]. *)
Definition library_provider_t : Type := string → world → N * world.

(** One invocation of a caller's block: the argument, the world the block
    was entered in, and what it returned. *)
Inductive event : Type :=
  | ReceiverCall (arg : N) (before : world) (ret : bool)
  | NameReceiverCall (arg : string) (before : world) (ret : bool).

Definition ev_ret (e : event) : bool :=
  match e with
  | ReceiverCall _ _ r => r
  | NameReceiverCall _ _ r => r
  end.

(** Computations: [None] is undefined behaviour (a handle that is dead
    or of the wrong type); otherwise the result, the world left behind
    and the block invocations made, oldest first. *)
Definition M (A : Type) : Type := world → option (A * world * list event).

#[global] Instance M_ret : MRet M := λ A a w, Some (a, w, []).

#[global] Instance M_bind : MBind M := λ A B f m w,
  match m w with
  | None => None
  | Some (a, w1, l1) =>
      match f a w1 with
      | None => None
      | Some (b, w2, l2) => Some (b, w2, l1 ++ l2)
      end
  end.

Definition fault {A} : M A := λ _, None.

Definition load (p : N) : M cell := λ w,
  match mem w !! p with
  | Some c => Some (c, w, [])
  | None => None
  end.

Definition store (p : N) (c : cell) : M unit := λ w,
  match mem w !! p with
  | Some _ => Some (tt, World (<[p := c]> (mem w)) (user w), [])
  | None => None
  end.

(** [new T(...)] and [delete p]. *)
Definition new (c : cell) : M N := λ w,
  let p := new_address (mem w) in
  Some (p, World (<[p := c]> (mem w)) (user w), []).

Definition delete_ (p : N) : M unit := λ w,
  match mem w !! p with
  | Some _ => Some (tt, World (delete p (mem w)) (user w), [])
  | None => None
  end.

(** [*error = e]: [error] must point to a variable of type
    [indexstoredb_error_t]. *)
Definition store_error (error e : N) : M unit :=
  c ← load error;
  match c with
  | ErrorVariable _ => store error (ErrorVariable e)
  | _ => fault
  end.

Definition call (receiver : receiver_t) (arg : N) : M bool := λ w,
  let '(r, w') := receiver arg w in Some (r, w', [ReceiverCall arg w r]).

Definition call_name (receiver : name_receiver_t) (arg : string) : M bool :=
  λ w,
  let '(r, w') := receiver arg w in Some (r, w', [NameReceiverCall arg w r]).

(** *** [IndexStoreDBObjectBase] *)

(** Modelled from the spec: [llvm::ThreadSafeRefCountedBase] is not among
    the sources.  Section 4.1: the counter of a new object is zero,
    [Retain] increments it, [Release] decrements it and destroys the
    object when it reaches zero. *)
Definition Retain (obj : N) : M unit :=
  c ← load obj;
  match c with
  | IndexStoreDBObject RefCount value =>
      store obj (IndexStoreDBObject (RefCount + 1) value)
  | _ => fault
  end.

Definition Release (obj : N) : M unit :=
  c ← load obj;
  match c with
  | IndexStoreDBObject RefCount value =>
      let NewRefCount := RefCount - 1 in
      if decide (NewRefCount = 0) then delete_ obj
      else store obj (IndexStoreDBObject NewRefCount value)
  | _ => fault
  end.

Definition make_object (value : payload) : M N :=
  obj ← new (IndexStoreDBObject 0 value);
  Retain obj;;
  mret obj.

(** The cast of a handle to a pointer to [IndexStoreDBObject<T>] followed
    by a read of [value]: undefined when the handle is not a live object
    holding a [T]. *)
Definition value_of (obj : N) : M payload :=
  c ← load obj;
  match c with
  | IndexStoreDBObject _ value => mret value
  | _ => fault
  end.

Definition as_IndexSystem (index : N) : M IndexSystem.t :=
  v ← value_of index;
  match v with IndexSystemRef i => mret i | _ => fault end.

Definition as_Symbol (symbol : N) : M Symbol.t :=
  v ← value_of symbol;
  match v with SymbolRef s => mret s | _ => fault end.

Definition as_SymbolOccurrence (occur : N) : M SymbolOccurrence.t :=
  v ← value_of occur;
  match v with SymbolOccurrenceRef o => mret o | _ => fault end.

Definition as_SymbolRelation (relation : N) : M SymbolRelation.t :=
  v ← value_of relation;
  match v with SymbolRelationValue r => mret r | _ => fault end.

Definition as_SymbolLocation (loc : indexstoredb_symbol_location_t)
    : M SymbolLocation.t :=
  o ← as_SymbolOccurrence (owner loc);
  mret (SymbolOccurrence.getLocation o).

(** [BlockIndexStoreLibraryProvider::getLibraryForStorePath]: ask the
    caller's block; a non-null answer is taken to be a handle on a library
    object, whose value is returned.  (Invocations of the provider are not
    logged; the log is for the receivers of results.) *)
Definition getLibraryForStorePath (callback : library_provider_t)
    (storePath : string) : M (option IndexStoreLibrary) :=
  lib ← (λ w, let '(lib, w') := callback storePath w in Some (lib, w', []));
  if decide (lib ≠ nullptr) then
    v ← value_of lib;
    match v with IndexStoreLibraryRef l => mret (Some l) | _ => fault end
  else mret None.

(** A range-based [for] whose body can leave the function with
    [return false]; falling off the end returns [true]. *)
Fixpoint range_for {A : Type} (range : list A) (body : A → M bool)
    : M bool :=
  match range with
  | [] => mret true
  | x :: rest =>
      body x ≫= λ continue : bool,
      if continue then range_for rest body else mret false
  end.

(** *** The index collaborator *)

(** [IndexSystem::create] and [loadIndexStoreLibrary] are taken as
    parameters: each yields the new index (or library), or nothing together
    with the text it left in [errMsg], and whatever it did to the world
    (it may call the library provider). *)
Context (IndexSystem_create :
  string → string → library_provider_t → bool → bool →
  world → option IndexSystem.t * string * world).
Context (loadIndexStoreLibrary :
  string → world → option IndexStoreLibrary * string * world).

(** Modelled from the spec: the streaming queries of [IndexSystem].
    Section 4.4 gives what each one selects (the lists above); section 9
    gives the protocol, "an explicit loop plus a short-circuit break" over
    the matches, with the receiver's result deciding continuation. *)
Definition IndexSystem_foreachSymbolOccurrenceByUSR (index : IndexSystem.t)
    (usr : string) (roles : N) (Receiver : SymbolOccurrence.t → M bool)
    : M bool :=
  range_for (IndexSystem.occurrencesByUSR index usr roles) Receiver.

Definition IndexSystem_foreachRelatedSymbolOccurrenceByUSR
    (index : IndexSystem.t) (usr : string) (roles : N)
    (Receiver : SymbolOccurrence.t → M bool) : M bool :=
  range_for (IndexSystem.relatedOccurrencesByUSR index usr roles) Receiver.

Definition IndexSystem_foreachSymbolOccurrenceAtLocation
    (index : IndexSystem.t) (path : string) (line col : Z) (roles : N)
    (Receiver : SymbolOccurrence.t → M bool) : M bool :=
  range_for (IndexSystem.occurrencesAtLocation index path line col roles)
            Receiver.

Definition IndexSystem_foreachSymbolName (index : IndexSystem.t)
    (Receiver : string → M bool) : M bool :=
  range_for (IndexSystem.allSymbolNames index) Receiver.

Definition IndexSystem_foreachCanonicalSymbolOccurrenceByName
    (index : IndexSystem.t) (name : string)
    (Receiver : SymbolOccurrence.t → M bool) : M bool :=
  range_for (IndexSystem.canonicalOccurrencesByName index name) Receiver.

Definition IndexSystem_foreachCanonicalSymbolOccurrenceContainingPattern
    (index : IndexSystem.t) (Pattern : string)
    (AnchorStart AnchorEnd Subsequence IgnoreCase : bool)
    (Receiver : SymbolOccurrence.t → M bool) : M bool :=
  range_for
    (IndexSystem.canonicalOccurrencesContainingPattern index Pattern
       AnchorStart AnchorEnd Subsequence IgnoreCase)
    Receiver.

(** *** The functions of [CIndexStoreDB.cpp] *)

Definition indexstoredb_index_create (storePath databasePath : string)
    (libProvider : library_provider_t) (readonly listenToUnitEvents : bool)
    (error : N) : M N :=
  '(index, errMsg) ← (λ w,
      let '(r, w') := IndexSystem_create storePath databasePath libProvider
                        readonly listenToUnitEvents w in
      Some (r, w', []));
  match index with
  | Some index => make_object (IndexSystemRef index)
  | None =>
      if decide (error ≠ nullptr) then
        e ← new (IndexStoreDBError errMsg);
        store_error error e;;
        mret nullptr
      else mret nullptr
  end.

Definition indexstoredb_load_indexstore_library (dylibPath : string)
    (error : N) : M N :=
  '(lib, errMsg) ← (λ w,
      let '(r, w') := loadIndexStoreLibrary dylibPath w in Some (r, w', []));
  match lib with
  | Some lib => make_object (IndexStoreLibraryRef lib)
  | None =>
      if decide (error ≠ nullptr) then
        e ← new (IndexStoreDBError errMsg);
        store_error error e;;
        mret nullptr
      else mret nullptr
  end.

(** The lambda that every occurrence query hands to the index:
    [receiver(make_object(Occur))]. *)
Definition forward_occurrence (receiver : receiver_t)
    (Occur : SymbolOccurrence.t) : M bool :=
  obj ← make_object (SymbolOccurrenceRef Occur);
  call receiver obj.

Definition indexstoredb_index_symbol_occurrences_by_usr (index : N)
    (usr : string) (roles : N) (receiver : receiver_t) : M bool :=
  obj ← as_IndexSystem index;
  IndexSystem_foreachSymbolOccurrenceByUSR obj usr roles
    (forward_occurrence receiver).

Definition indexstoredb_index_related_symbol_occurrences_by_usr (index : N)
    (usr : string) (roles : N) (receiver : receiver_t) : M bool :=
  obj ← as_IndexSystem index;
  IndexSystem_foreachRelatedSymbolOccurrenceByUSR obj usr roles
    (forward_occurrence receiver).

Definition indexstoredb_index_symbol_occurrences_at_location (index : N)
    (path : string) (line utf8Column : Z) (roles : N)
    (receiver : receiver_t) : M bool :=
  obj ← as_IndexSystem index;
  IndexSystem_foreachSymbolOccurrenceAtLocation obj path line utf8Column roles
    (forward_occurrence receiver).

Definition indexstoredb_symbol_usr (symbol : N) : M string :=
  obj ← as_Symbol symbol;
  mret (Symbol.getUSR obj).

Definition indexstoredb_symbol_name (symbol : N) : M string :=
  obj ← as_Symbol symbol;
  mret (Symbol.getName obj).

Definition indexstoredb_symbol_kind (symbol : N)
    : M indexstoredb_symbol_kind_t :=
  symbolObj ← as_Symbol symbol;
  mret (toCSymbolKind (Symbol.getSymbolKind symbolObj)).

Definition indexstoredb_index_symbol_names (index : N)
    (receiver : name_receiver_t) : M bool :=
  obj ← as_IndexSystem index;
  IndexSystem_foreachSymbolName obj (call_name receiver).

Definition indexstoredb_index_canonical_symbol_occurences_by_name (index : N)
    (symbolName : string) (receiver : receiver_t) : M bool :=
  obj ← as_IndexSystem index;
  IndexSystem_foreachCanonicalSymbolOccurrenceByName obj symbolName
    (forward_occurrence receiver).

Definition indexstoredb_index_canonical_symbol_occurences_containing_pattern
    (index : N) (pattern : string)
    (anchorStart anchorEnd subsequence ignoreCase : bool)
    (receiver : receiver_t) : M bool :=
  obj ← as_IndexSystem index;
  IndexSystem_foreachCanonicalSymbolOccurrenceContainingPattern obj pattern
    anchorStart anchorEnd subsequence ignoreCase
    (forward_occurrence receiver).

Definition indexstoredb_symbol_occurrence_symbol (occur : N) : M N :=
  obj ← as_SymbolOccurrence occur;
  make_object (SymbolRef (SymbolOccurrence.getSymbol obj)).

Definition indexstoredb_symbol_relation_get_roles (relation : N) : M N :=
  relationObj ← as_SymbolRelation relation;
  mret (SymbolRelation.getRoles relationObj).

Definition indexstoredb_symbol_relation_get_symbol (relation : N) : M N :=
  relationObj ← as_SymbolRelation relation;
  make_object (SymbolRef (SymbolRelation.getSymbol relationObj)).

Definition indexstoredb_symbol_occurrence_relations (occurrence : N)
    (applier : receiver_t) : M bool :=
  occurrenceObj ← as_SymbolOccurrence occurrence;
  let relations := SymbolOccurrence.getRelations occurrenceObj in
  range_for relations (λ rel,
    r ← make_object (SymbolRelationValue rel);
    continue ← call applier r;
    mret continue).

Definition indexstoredb_symbol_occurrence_roles (occur : N) : M N :=
  obj ← as_SymbolOccurrence occur;
  mret (SymbolOccurrence.getRoles obj).

Definition indexstoredb_symbol_occurrence_location (occur : N)
    : M indexstoredb_symbol_location_t :=
  _ ← as_SymbolOccurrence occur;
  mret (LocationIn occur).

Definition indexstoredb_symbol_location_path
    (loc : indexstoredb_symbol_location_t) : M string :=
  obj ← as_SymbolLocation loc;
  mret (SymbolLocation.getPath obj).

Definition indexstoredb_symbol_location_is_system
    (loc : indexstoredb_symbol_location_t) : M bool :=
  obj ← as_SymbolLocation loc;
  mret (SymbolLocation.isSystem obj).

(** Line and column are returned at type [int]. *)
Definition indexstoredb_symbol_location_line
    (loc : indexstoredb_symbol_location_t) : M Z :=
  obj ← as_SymbolLocation loc;
  mret (CInt.to_int (SymbolLocation.getLine obj)).

Definition indexstoredb_symbol_location_column_utf8
    (loc : indexstoredb_symbol_location_t) : M Z :=
  obj ← as_SymbolLocation loc;
  mret (CInt.to_int (SymbolLocation.getColumn obj)).

Definition indexstoredb_retain (obj : N) : M N :=
  (if decide (obj ≠ nullptr) then Retain obj else mret tt);;
  mret obj.

Definition indexstoredb_release (obj : N) : M unit :=
  if decide (obj ≠ nullptr) then Release obj else mret tt.

Definition indexstoredb_error_get_description (error : N) : M string :=
  c ← load error;
  match c with
  | IndexStoreDBError message => mret message
  | _ => fault
  end.

Definition indexstoredb_error_dispose (error : N) : M unit :=
  if decide (error ≠ nullptr) then
    c ← load error;
    match c with
    | IndexStoreDBError _ => delete_ error
    | _ => fault
    end
  else mret tt.

(** *** Observing a run *)

(** The world a block left behind when it returned from the invocation
    [e]. *)
Definition world_after (receiver : receiver_t) (e : event) : world :=
  match e with
  | ReceiverCall h wb _ => (receiver h wb).2
  | NameReceiverCall _ wb _ => wb
  end.


(** The world in which the work for the [i]-th invocation starts: the
    initial one, or the one the previous invocation returned in. *)
Definition entered_from (after : event → world) (w : world)
    (log : list event) (i : nat) : world :=
  match i with
  | O => w
  | S j => from_option after w (log !! j)
  end.

(** The invocation [e] is [receiver(make_object(value))] started in [w0]. *)
Definition wraps_and_calls (receiver : receiver_t) (value : payload)
    (w0 : world) (e : event) : Prop :=
  ∃ h wb, make_object value w0 = Some (h, wb, [])
          ∧ e = ReceiverCall h wb (receiver h wb).1.


(** What the log of a streaming operation over [matches] elements looks
    like: an invocation that returned "stop" is the last one; the operation
    returns false exactly when some invocation returned "stop"; there is
    never more than one invocation per element, exactly one per element
    when the operation returns true, and at least one when there is an
    element at all; a "stop" from the first invocation leaves exactly that
    one invocation. *)
Definition stop_semantics (matches : nat) (result : bool)
    (log : list event) : Prop :=
  (∀ i e, log !! i = Some e → ev_ret e = false → S i = length log)
  ∧ (result = false ↔ ∃ e, e ∈ log ∧ ev_ret e = false)
  ∧ (length log ≤ matches)%nat
  ∧ (result = true → length log = matches)
  ∧ (0 < matches → log ≠ [])%nat
  ∧ (∀ e, head log = Some e → ev_ret e = false →
          result = false ∧ length log = 1%nat).

(** [e] is an invocation of this very block, with the result the block
    gave. *)
Definition invocation_of (receiver : receiver_t) (e : event) : Prop :=
  ∃ h wb, e = ReceiverCall h wb (receiver h wb).1.



(** A handle the caller holds the only reference to. *)
Definition owned_once (h : N) (value : payload) (w : world) : Prop :=
  h ≠ nullptr ∧ mem w !! h = Some (IndexStoreDBObject 1 value).


(** The invocation [e] hands the block a fresh handle on the occurrence
    [o]. *)
Definition streamed_occurrence (e : event) (o : SymbolOccurrence.t) : Prop :=
  ∃ h wb r, e = ReceiverCall h wb r
            ∧ owned_once h (SymbolOccurrenceRef o) wb.

(** What the block can read from the handle it was given in [e]: the
    occurrence's roles, and the USR of its symbol. *)
Definition streamed_roles (e : event) (roles : N) : Prop :=
  ∃ h wb r, e = ReceiverCall h wb r
            ∧ indexstoredb_symbol_occurrence_roles h wb = Some (roles, wb, []).

Definition streamed_usr (e : event) (usr : string) : Prop :=
  ∃ h wb r s wb',
    e = ReceiverCall h wb r
    ∧ indexstoredb_symbol_occurrence_symbol h wb = Some (s, wb', [])
    ∧ indexstoredb_symbol_usr s wb' = Some (usr, wb', []).

(** How a construction function answers, seen from the world [w1] that the
    collaborator left: [made] is what it built (if anything) and [errMsg]
    the text it left.  On success the answer is a new object wrapping
    [made], nothing else is added and the [error] variable keeps its
    contents.  On failure the answer is null; a null [error] leaves [w1] as
    it is, and otherwise a new [IndexStoreDBError] carrying [errMsg] is
    stored in the variable [error] points to. *)
Definition reports_through (made : option payload) (errMsg : string)
    (error : N) (w1 : world) (run : option (N * world * list event)) : Prop :=
  ∃ h w',
    run = Some (h, w', [])
    ∧ user w' = user w1
    ∧ match made with
      | Some value =>
          h ≠ nullptr
          ∧ mem w1 !! h = None
          ∧ mem w' = <[h := IndexStoreDBObject 1 value]> (mem w1)
          ∧ mem w' !! error = mem w1 !! error
      | None =>
          h = nullptr
          ∧ if decide (error = nullptr) then w' = w1
            else ∃ e,
              e ≠ nullptr
              ∧ mem w1 !! e = None
              ∧ mem w'
                = <[error := ErrorVariable e]>
                    (<[e := IndexStoreDBError errMsg]> (mem w1))
              ∧ indexstoredb_error_get_description e w'
                = Some (errMsg, w', [])
      end.

End Facade.

(** ** A small index to run the facade on *)

Module Scenario.

Definition foo : Symbol.t := Symbol.mk "c:@F@foo" "foo" SK_Function.
Definition bar : Symbol.t := Symbol.mk "c:@F@bar" "bar" SK_Using.

(** A definition of [foo] at a.c:3:5 (canonical, with two relations) and a
    reference to it at b.c:10:1. *)
Definition foo_definition : SymbolOccurrence.t :=
  SymbolOccurrence.mk foo (2 + 2 ^ 63)%N (SymbolLocation.mk "a.c" false 3 5)
    [ SymbolRelation.mk (2 ^ 9)%N bar; SymbolRelation.mk (2 ^ 18)%N foo ].

Definition foo_reference : SymbolOccurrence.t :=
  SymbolOccurrence.mk foo 4%N (SymbolLocation.mk "b.c" false 10 1) [].

Definition index : IndexSystem.t :=
  IndexSystem.mk [foo_definition; foo_reference].

(** The caller's state is a counter.  The heap holds the index at address
    1, an occurrence at 2, a symbol at 3, a relation at 4 and a variable
    of type [indexstoredb_error_t] at 5. *)
Definition heap : gmap N cell :=
  <[1%N := IndexStoreDBObject 1 (IndexSystemRef index)]>
  (<[2%N := IndexStoreDBObject 1 (SymbolOccurrenceRef foo_definition)]>
  (<[3%N := IndexStoreDBObject 2 (SymbolRef bar)]>
  (<[4%N := IndexStoreDBObject 1
              (SymbolRelationValue (SymbolRelation.mk (2 ^ 9)%N bar))]>
  (<[5%N := ErrorVariable nullptr]> ∅)))).

Definition start : @world nat := World heap 0%nat.

(** A block that counts its invocations and never stops, and one that
    stops at once. *)
Definition count_all : @receiver_t nat :=
  λ _ w, (true, World (mem w) (S (user w))).

Definition stop_at_once : @receiver_t nat :=
  λ _ w, (false, World (mem w) (S (user w))).

(** An [IndexSystem::create] that succeeds exactly when the store path is
    not empty, and a library loader that always fails. *)
Definition create : string → string → @library_provider_t nat → bool → bool →
    @world nat → option IndexSystem.t * string * @world nat :=
  λ storePath _ _ _ _ w,
    if decide (storePath = EmptyString) then (None, "no store path"%string, w)
    else (Some index, EmptyString, w).

Definition load_library
    : string → @world nat → option IndexStoreLibrary * string * @world nat :=
  λ _ w, (None, "cannot load"%string, w).

(** What a test would look at after a run: the result, the caller's
    counter and the handles the block was given. *)
Definition summary (run : option (bool * @world nat * list (@event nat)))
    : option (bool * nat * list N) :=
  match run with
  | Some (result, w', log) =>
      Some (result, user w',
            (λ e, match e with
                  | ReceiverCall h _ _ => h
                  | NameReceiverCall _ _ _ => nullptr
                  end) <$> log)
  | None => None
  end.

(** Only the value a run returned. *)
Definition result_of {A} (run : option (A * @world nat * list (@event nat)))
    : option A :=
  (λ r, r.1.1) <$> run.

End Scenario.

(** ** Callers *)

(** A loader that finds every library, for running the construction
    functions on their success path. *)
Definition load_any_library {U : Type}
    : string → @world U → option IndexStoreLibrary * string * @world U :=
  λ path w, (Some {| dylibPath := path |}, EmptyString, w).

(** The value of a set of role flags as a caller builds it for [roles]:
    the bitwise OR of the members' values. *)
Definition role_set_value (flags : list indexstoredb_symbol_role_t) : Z :=
  foldr (λ r acc, Z.lor (default 0 (role_value r)) acc) 0 flags.

(** The kinds for which the switch of [toCSymbolKind] has a case. *)
Definition has_case (K : SymbolKind) : bool :=
  match K with
  | SK_Using | SK_Unlisted _ => false
  | _ => true
  end.

(** The same three fields, read from the symbol itself. *)
Definition symbol_description (s : Symbol.t)
    : string * string * indexstoredb_symbol_kind_t :=
  (Symbol.getUSR s, Symbol.getName s, toCSymbolKind (Symbol.getSymbolKind s)).

(** The four fields of a location as the accessors return them: line and
    column come back at type [int]. *)
Definition location_description (l : SymbolLocation.t)
    : string * bool * Z * Z :=
  (SymbolLocation.getPath l, SymbolLocation.isSystem l,
   CInt.to_int (SymbolLocation.getLine l),
   CInt.to_int (SymbolLocation.getColumn l)).

Section Callers.

Context {U : Type}.

(** [m] run [k] times in a row, the results dropped. *)
Fixpoint times {A} (k : nat) (m : @M U A) : @M U unit :=
  match k with
  | O => mret tt
  | S k' => m;; times k' m
  end.

(** A block that hands its handle straight back with
    [indexstoredb_release] and goes on. *)
Definition release_each : @receiver_t U :=
  λ h w,
    match indexstoredb_release h w with
    | Some (_, w', _) => (true, w')
    | None => (true, w)
    end.

(** A block that keeps every handle it is given and goes on, leaving the
    heap alone. *)
Definition keep_each : @receiver_t U := λ _ w, (true, w).

(** What a caller reads from a symbol handle: USR, name and kind. *)
Definition describe_symbol (symbol : N)
    : @M U (string * string * indexstoredb_symbol_kind_t) :=
  usr ← indexstoredb_symbol_usr symbol;
  name ← indexstoredb_symbol_name symbol;
  kind ← indexstoredb_symbol_kind symbol;
  mret (usr, name, kind).

(** Get a symbol handle, read it, and give the handle back. *)
Definition describe_and_release (get : @M U N)
    : @M U (string * string * indexstoredb_symbol_kind_t) :=
  symbol ← get;
  description ← describe_symbol symbol;
  indexstoredb_release symbol;;
  mret description.

(** What a caller reads from a location pointer. *)
Definition describe_location (loc : indexstoredb_symbol_location_t)
    : @M U (string * bool * Z * Z) :=
  path ← indexstoredb_symbol_location_path loc;
  system ← indexstoredb_symbol_location_is_system loc;
  line ← indexstoredb_symbol_location_line loc;
  column ← indexstoredb_symbol_location_column_utf8 loc;
  mret (path, system, line, column).

(** A library provider that always answers with the handle [lib]. *)
Definition provide (lib : N) : @library_provider_t U := λ _ w, (lib, w).

(** A run of a query that selects by [select] and by a role mask among the
    stored occurrences [occs].  The run returns and obeys the stop protocol
    over the selected occurrences, every invocation being the receiver's
    own; each occurrence handed over has, for a mask that is not zero, roles
    that meet the mask; what is handed over is the selection itself, in
    order, one occurrence per invocation, up to the invocation at which the
    run ended.  With a mask of zero the selection is everything [select]
    accepts, whatever the roles: a stopped run has handed over its first
    occurrences up to the stop, a run that was not stopped all of it. *)
Definition streams_masked (select : SymbolOccurrence.t → bool) (roleMask : N)
    (occs : list SymbolOccurrence.t) (receiver : @receiver_t U)
    (run : option (bool * @world U * list (@event U))) : Prop :=
  let selected :=
    filter (λ o, select o
                 && IndexSystem.matches_roles (SymbolOccurrence.getRoles o)
                      roleMask) occs in
  let unmasked := filter (λ o, select o) occs in
  ∃ result w' log,
    run = Some (result, w', log)
    ∧ stop_semantics (length selected) result log
    ∧ Forall (invocation_of receiver) log
    ∧ Forall (λ e, ∃ roles, streamed_roles e roles
                            ∧ (roleMask ≠ 0%N → N.land roles roleMask ≠ 0%N))
             log
    ∧ Forall2 streamed_occurrence log (take (length log) selected)
    ∧ (roleMask = 0%N →
       stop_semantics (length unmasked) result log
       ∧ Forall2 streamed_occurrence log (take (length log) unmasked))
    ∧ (roleMask = 0%N → result = true →
       Forall2 streamed_occurrence log unmasked).

End Callers.

(** * Properties *)

(** ** The role constants *)

Lemma role_value_small r :
  0 ≤ role_shift r ≤ 18 → role_value r = Some (Z.shiftl 1 (role_shift r)).
Proof.
  intros Hk. unfold role_value, CInt.shl, CInt.int_bits.
  rewrite decide_True; [done|].
  split; [lia|]. split; [lia|].
  apply Z.lt_le_trans with (2 ^ 19); [|by vm_compute].
  rewrite Z.mul_1_l. apply Z.pow_lt_mono_r; lia.
Qed.

Lemma occupies_bit_inj r k k' :
  0 ≤ k → 0 ≤ k' → occupies_bit r k → occupies_bit r k' → k = k'.
Proof.
  unfold occupies_bit. intros Hk Hk' -> [= H].
  rewrite !Z.shiftl_1_l in H. by apply Z.pow_inj_r in H.
Qed.

Lemma occupies_own_bit r :
  r ≠ INDEXSTOREDB_SYMBOL_ROLE_CANONICAL → occupies_bit r (role_shift r).
Proof. intros Hr. apply role_value_small. destruct r; simpl; done || lia. Qed.

Lemma occurrence_role_shift r :
  r ∈ occurrence_roles ↔ 0 ≤ role_shift r ≤ 8.
Proof.
  split.
  - intros Hr. unfold occurrence_roles in Hr.
    repeat (apply elem_of_cons in Hr as [->|Hr]; [simpl; lia|]).
    by apply elem_of_nil in Hr.
  - intros Hk. unfold occurrence_roles.
    destruct r; simpl in Hk; first [lia | repeat constructor].
Qed.

Lemma relation_role_shift r :
  r ∈ relation_roles ↔ 9 ≤ role_shift r ≤ 18.
Proof.
  split.
  - intros Hr. unfold relation_roles in Hr.
    repeat (apply elem_of_cons in Hr as [->|Hr]; [simpl; lia|]).
    by apply elem_of_nil in Hr.
  - intros Hk. unfold relation_roles.
    destruct r; simpl in Hk; first [lia | repeat constructor].
Qed.

Lemma role_with_shift k :
  0 ≤ k ≤ 18 → ∃ r, role_shift r = k.
Proof.
  intros Hk.
  assert (Hn : ∃ n : nat, k = Z.of_nat n ∧ (n ≤ 18)%nat)
    by (exists (Z.to_nat k); lia).
  destruct Hn as (n & -> & Hn).
  cut (Exists (λ r, role_shift r = Z.of_nat n)
              (occurrence_roles ++ relation_roles)).
  { intros (r & _ & Hr)%Exists_exists. eauto. }
  do 19 (destruct n as [|n];
         [apply (bool_decide_unpack _); vm_compute; exact I|]).
  lia.
Qed.

(** C2, as the specification states it, fails: the header also declares
    [INDEXSTOREDB_SYMBOL_ROLE_REL_SPECIALIZATIONOF = 1 << 18], a relation
    role whose bit is outside the range 9..17. *)
Lemma specializationof_outside_9_17 :
  INDEXSTOREDB_SYMBOL_ROLE_REL_SPECIALIZATIONOF ∈ relation_roles ∧
  role_value INDEXSTOREDB_SYMBOL_ROLE_REL_SPECIALIZATIONOF = Some (2 ^ 18) ∧
  ¬ (∃ k, 9 ≤ k ≤ 17 ∧
          occupies_bit INDEXSTOREDB_SYMBOL_ROLE_REL_SPECIALIZATIONOF k) ∧
  ¬ spec_role_layout.
Proof.
  assert (Hin : INDEXSTOREDB_SYMBOL_ROLE_REL_SPECIALIZATIONOF ∈ relation_roles)
    by (unfold relation_roles; set_solver).
  assert (Hno : ¬ (∃ k, 9 ≤ k ≤ 17 ∧
            occupies_bit INDEXSTOREDB_SYMBOL_ROLE_REL_SPECIALIZATIONOF k)).
  { intros (k & Hk & Hbit).
    assert (k = 18); [|lia].
    apply (occupies_bit_inj INDEXSTOREDB_SYMBOL_ROLE_REL_SPECIALIZATIONOF);
      [lia|lia|done|by apply occupies_own_bit]. }
  split; [done|]. split; [by vm_compute|]. split; [done|].
  intros (_ & _ & Hrel & _). by apply Hno, Hrel.
Qed.

(** C2, amended: the nine occurrence roles are bits 0 to 8, the ten
    relation roles are bits 9 to 18, the canonical flag is declared with
    shift count 63 (bit 63, that is 2^63, once the shift is carried out in
    64 bits) above every other flag, every enumerator belongs to one of the
    three groups, and no occurrence role shares a bit with a relation
    role. *)
Theorem role_layout :
  length occurrence_roles = 9%nat ∧
  (∀ k, 0 ≤ k ≤ 8 → ∃ r, r ∈ occurrence_roles ∧ occupies_bit r k) ∧
  (∀ r, r ∈ occurrence_roles → ∃ k, 0 ≤ k ≤ 8 ∧ occupies_bit r k) ∧
  length relation_roles = 10%nat ∧
  (∀ k, 9 ≤ k ≤ 18 → ∃ r, r ∈ relation_roles ∧ occupies_bit r k) ∧
  (∀ r, r ∈ relation_roles → ∃ k, 9 ≤ k ≤ 18 ∧ occupies_bit r k) ∧
  role_shift INDEXSTOREDB_SYMBOL_ROLE_CANONICAL = 63 ∧
  Z.shiftl 1 (role_shift INDEXSTOREDB_SYMBOL_ROLE_CANONICAL) = 2 ^ 63 ∧
  (∀ r, r ≠ INDEXSTOREDB_SYMBOL_ROLE_CANONICAL →
        role_shift r < role_shift INDEXSTOREDB_SYMBOL_ROLE_CANONICAL) ∧
  (∀ r, r ∈ occurrence_roles ∨ r ∈ relation_roles
        ∨ r = INDEXSTOREDB_SYMBOL_ROLE_CANONICAL) ∧
  (∀ r1 r2 k, r1 ∈ occurrence_roles → r2 ∈ relation_roles →
              occupies_bit r1 k → ¬ occupies_bit r2 k) ∧
  (∀ r1 r2 v1 v2, r1 ∈ occurrence_roles → r2 ∈ relation_roles →
                  role_value r1 = Some v1 → role_value r2 = Some v2 →
                  Z.land v1 v2 = 0).
Proof.
  split; [done|]. split.
  { intros k Hk. destruct (role_with_shift k) as [r <-]; [lia|].
    exists r. split; [by apply occurrence_role_shift|].
    apply role_value_small; lia. }
  split.
  { intros r Hr. apply occurrence_role_shift in Hr as Hk.
    exists (role_shift r). split; [done|]. apply role_value_small; lia. }
  split; [done|]. split.
  { intros k Hk. destruct (role_with_shift k) as [r <-]; [lia|].
    exists r. split; [by apply relation_role_shift|].
    apply role_value_small; lia. }
  split.
  { intros r Hr. apply relation_role_shift in Hr as Hk.
    exists (role_shift r). split; [done|]. apply role_value_small; lia. }
  split; [done|]. split; [done|]. split.
  { intros r Hr. destruct r; simpl; done || lia. }
  split.
  { intros r. rewrite occurrence_role_shift, relation_role_shift.
    destruct r; simpl; auto; lia. }
  split.
  { intros r1 r2 k H1%occurrence_role_shift H2%relation_role_shift Hb1 Hb2.
    unfold occupies_bit in *.
    rewrite role_value_small in Hb1, Hb2 by lia.
    injection Hb1 as Hb1. injection Hb2 as Hb2.
    rewrite !Z.shiftl_1_l in Hb1, Hb2.
    assert (2 ^ role_shift r1 = 2 ^ role_shift r2) as Heq by congruence.
    apply Z.pow_inj_r in Heq; lia. }
  intros r1 r2 v1 v2 H1%occurrence_role_shift H2%relation_role_shift Hv1 Hv2.
  rewrite role_value_small in Hv1, Hv2 by lia.
  injection Hv1 as <-. injection Hv2 as <-.
  apply Z.bits_inj_0. intros n. rewrite Z.land_spec.
  destruct (Z.neg_nonneg_cases n) as [Hn|Hn].
  { by rewrite !Z.testbit_neg_r. }
  rewrite !Z.shiftl_1_l, !Z.pow2_bits_eqb by lia.
  destruct (Z.eqb_spec (role_shift r1) n), (Z.eqb_spec (role_shift r2) n);
    simpl; try done; lia.
Qed.

(** The initialiser of the canonical flag, [1 << 63], shifts an [int] by
    more than its width. *)
Lemma canonical_shift_exceeds_int :
  CInt.int_bits ≤ role_shift INDEXSTOREDB_SYMBOL_ROLE_CANONICAL ∧
  role_value INDEXSTOREDB_SYMBOL_ROLE_CANONICAL = None.
Proof. split; [by vm_compute | reflexivity]. Qed.

(** ** The name matcher *)

Lemma starts_with_take p c :
  PatternMatching.starts_with p c = true ↔ take (length p) c = p.
Proof.
  revert c. induction p as [|a p IH]; intros c; simpl.
  - by rewrite take_0.
  - destruct c as [|b c]; simpl; [done|].
    rewrite andb_true_iff, bool_decide_eq_true, IH.
    split; [by intros [-> ->] | by intros [= -> ->]].
Qed.

Lemma ends_with_drop p c :
  PatternMatching.ends_with p c = true ↔ drop (length c - length p) c = p.
Proof.
  unfold PatternMatching.ends_with.
  rewrite starts_with_take, length_reverse, take_reverse.
  split; [by intros ?%(inj reverse) | by intros ->].
Qed.

Lemma drop_suffix_length {A} (p c : list A) :
  drop (length c - length p) c = p → (length p ≤ length c)%nat.
Proof.
  intros H. apply (f_equal length) in H. rewrite length_drop in H. lia.
Qed.

Lemma starts_with_contains p c :
  PatternMatching.starts_with p c = true → PatternMatching.contains p c = true.
Proof. intros H. destruct c; simpl; by rewrite H. Qed.

(** C8: with both anchors, no subsequence matching and exact case, the
    matcher accepts a candidate exactly when the pattern is no longer than
    the candidate and equals both its first and its last [len(pattern)]
    characters; with [anchorEnd] the pattern is a literal suffix of every
    accepted candidate; a pattern longer than the candidate is rejected. *)
Theorem matchesPattern_both_anchors (candidate pattern : string) :
  let c := list_ascii_of_string candidate in
  let p := list_ascii_of_string pattern in
  (PatternMatching.matchesPattern candidate pattern true true false false
     = true
   ↔ (length p ≤ length c)%nat
     ∧ take (length p) c = p
     ∧ drop (length c - length p) c = p)
  ∧ (∀ anchorStart,
       PatternMatching.matchesPattern candidate pattern anchorStart true
         false false = true →
       ∃ front, c = front ++ p)
  ∧ ((length c < length p)%nat →
     PatternMatching.matchesPattern candidate pattern true true false false
       = false).
Proof.
  intros c p.
  assert (Hiff :
    PatternMatching.matchesPattern candidate pattern true true false false
      = true
    ↔ (length p ≤ length c)%nat
      ∧ take (length p) c = p
      ∧ drop (length c - length p) c = p).
  { unfold PatternMatching.matchesPattern, PatternMatching.matches,
      PatternMatching.fold_case.
    fold c p. rewrite !andb_true_iff, starts_with_take, ends_with_drop.
    split.
    - intros [[_ Hpre] Hsuf]. eauto using drop_suffix_length.
    - intros (_ & Hpre & Hsuf). repeat split; [|done..].
      by apply starts_with_contains, starts_with_take. }
  split; [done|]. split.
  - intros anchorStart.
    unfold PatternMatching.matchesPattern, PatternMatching.matches,
      PatternMatching.fold_case.
    fold c p. rewrite !andb_true_iff, ends_with_drop.
    intros [_ Hsuf]. exists (take (length c - length p) c).
    pose proof (take_drop (length c - length p) c) as Htd.
    rewrite Hsuf in Htd. symmetry. exact Htd.
  - intros Hlen.
    apply not_true_is_false. intros E%Hiff. lia.
Qed.

(** The end-to-end scenario of the specification (section 8). *)
Example matcher_scenario :
  (λ n, PatternMatching.matchesPattern n "fb" false false true true)
    <$> ["fooBar"; "FooBaz"; "bar"]%string
  = [true; true; false].
Proof. reflexivity. Qed.

(** ** The symbol kinds *)

Lemma toCSymbolKind_range K : toCSymbolKind K ∈ symbol_kind_range.
Proof.
  destruct K; apply (bool_decide_unpack _); vm_compute; exact I.
Qed.

Lemma using_not_in_range : INDEXSTOREDB_SYMBOL_KIND_USING ∉ symbol_kind_range.
Proof. apply (bool_decide_unpack _). vm_compute. exact I. Qed.

Lemma toCSymbolKind_not_using K :
  toCSymbolKind K ≠ INDEXSTOREDB_SYMBOL_KIND_USING.
Proof.
  intros H. apply using_not_in_range. rewrite <- H. apply toCSymbolKind_range.
Qed.

(** ** Runs of the facade *)

Section FacadeProperties.

Context {U : Type} {allocator : Allocator}.
Context (IndexSystem_create :
  string → string → @library_provider_t U → bool → bool →
  @world U → option IndexSystem.t * string * @world U).
Context (loadIndexStoreLibrary :
  string → @world U → option IndexStoreLibrary * string * @world U).

Implicit Types (w : @world U) (log : list (@event U)) (h obj : N)
  (value : payload).

(** *** Stepping through the monad *)

Lemma bind_run {A B} (m : M A) (f : A → M B) w a w1 l1 :
  m w = Some (a, w1, l1) →
  (m ≫= f) w = match f a w1 with
               | Some (b, w2, l2) => Some (b, w2, l1 ++ l2)
               | None => None
               end.
Proof. intros H. unfold mbind, M_bind. by rewrite H. Qed.

Lemma load_run p c w : mem w !! p = Some c → load p w = Some (c, w, []).
Proof. intros H. unfold load. by rewrite H. Qed.

Lemma value_of_run obj RefCount value w :
  mem w !! obj = Some (IndexStoreDBObject RefCount value) →
  value_of obj w = Some (value, w, []).
Proof.
  intros H. unfold value_of. by rewrite (bind_run _ _ _ _ _ _ (load_run _ _ _ H)).
Qed.

Lemma as_IndexSystem_run index RefCount i w :
  mem w !! index = Some (IndexStoreDBObject RefCount (IndexSystemRef i)) →
  as_IndexSystem index w = Some (i, w, []).
Proof.
  intros H. unfold as_IndexSystem.
  by rewrite (bind_run _ _ _ _ _ _ (value_of_run _ _ _ _ H)).
Qed.

Lemma as_Symbol_run symbol RefCount s w :
  mem w !! symbol = Some (IndexStoreDBObject RefCount (SymbolRef s)) →
  as_Symbol symbol w = Some (s, w, []).
Proof.
  intros H. unfold as_Symbol.
  by rewrite (bind_run _ _ _ _ _ _ (value_of_run _ _ _ _ H)).
Qed.

Lemma as_SymbolOccurrence_run occur RefCount o w :
  mem w !! occur = Some (IndexStoreDBObject RefCount (SymbolOccurrenceRef o)) →
  as_SymbolOccurrence occur w = Some (o, w, []).
Proof.
  intros H. unfold as_SymbolOccurrence.
  by rewrite (bind_run _ _ _ _ _ _ (value_of_run _ _ _ _ H)).
Qed.

Lemma as_SymbolRelation_run relation RefCount r w :
  mem w !! relation = Some (IndexStoreDBObject RefCount (SymbolRelationValue r)) →
  as_SymbolRelation relation w = Some (r, w, []).
Proof.
  intros H. unfold as_SymbolRelation.
  by rewrite (bind_run _ _ _ _ _ _ (value_of_run _ _ _ _ H)).
Qed.

(** *** Reference counting *)

Lemma Retain_run obj RefCount value w :
  mem w !! obj = Some (IndexStoreDBObject RefCount value) →
  Retain obj w
  = Some (tt, World (<[obj := IndexStoreDBObject (RefCount + 1) value]> (mem w))
                    (user w), []).
Proof.
  intros H. unfold Retain.
  rewrite (bind_run _ _ _ _ _ _ (load_run _ _ _ H)). unfold store.
  by rewrite H.
Qed.

Lemma Release_run obj RefCount value w :
  mem w !! obj = Some (IndexStoreDBObject RefCount value) →
  Release obj w
  = Some (tt,
          World (if decide (RefCount = 1) then delete obj (mem w)
                 else <[obj := IndexStoreDBObject (RefCount - 1) value]> (mem w))
                (user w), []).
Proof.
  intros H. unfold Release.
  rewrite (bind_run _ _ _ _ _ _ (load_run _ _ _ H)).
  destruct (decide (RefCount = 1)) as [->|Hne].
  - simpl. unfold delete_. by rewrite H.
  - rewrite decide_False by lia. unfold store. by rewrite H.
Qed.

(** [make_object] always succeeds: it returns an address that was unused
    and is not null, and leaves there an object with one reference. *)
Lemma make_object_run value w :
  make_object value w
  = Some (new_address (mem w),
          World (<[new_address (mem w) := IndexStoreDBObject 1 value]> (mem w))
                (user w), []).
Proof.
  unfold make_object, new.
  erewrite bind_run; [|reflexivity].
  erewrite bind_run; [|apply Retain_run; simpl; apply lookup_insert_eq].
  simpl. by rewrite insert_insert_eq.
Qed.

Lemma make_object_owned value w h w' log :
  make_object value w = Some (h, w', log) →
  log = [] ∧ mem w !! h = None ∧ owned_once h value w'
  ∧ mem w' = <[h := IndexStoreDBObject 1 value]> (mem w)
  ∧ user w' = user w.
Proof.
  rewrite make_object_run. intros [= <- <- <-].
  split; [done|]. split; [apply new_address_unused|].
  split; [|done]. split; [apply new_address_nonnull|].
  simpl. apply lookup_insert_eq.
Qed.

Lemma release_owned h value w :
  owned_once h value w →
  indexstoredb_release h w = Some (tt, World (delete h (mem w)) (user w), []).
Proof.
  intros [Hnn Hh]. unfold indexstoredb_release.
  rewrite decide_True by done. by rewrite (Release_run _ _ _ _ Hh).
Qed.

(** *** The loop *)

Lemma stop_semantics_nil : stop_semantics (U := U) 0 true [].
Proof.
  repeat split; try done.
  - intros (e & He & _). by apply elem_of_nil in He.
  - lia.
Qed.

Lemma stop_semantics_stop n (e : @event U) :
  ev_ret e = false → stop_semantics (S n) false [e].
Proof.
  intros He. repeat split; try done; simpl; try lia.
  - intros [|i] e' Hi _; [done|]. by rewrite lookup_cons in Hi.
  - intros _. exists e. split; [apply list_elem_of_here | done].
Qed.

Lemma stop_semantics_continue n (e : @event U) result log :
  ev_ret e = true → stop_semantics n result log →
  stop_semantics (S n) result (e :: log).
Proof.
  intros He (Hlast & Hres & Hle & Hall & Hne & _).
  split; [|split; [|split; [|split; [|split]]]]; simpl.
  - intros [|i] e' Hi Hstop; simpl in Hi.
    + injection Hi as <-. congruence.
    + f_equal. by eapply Hlast.
  - split.
    + intros Hr. apply Hres in Hr as (e' & Hin & Hstop).
      exists e'. split; [by apply list_elem_of_further | done].
    + intros (e' & Hin & Hstop). apply Hres.
      apply elem_of_cons in Hin as [->|Hin]; [congruence|eauto].
  - lia.
  - intros Hr. f_equal. by apply Hall.
  - done.
  - intros e' [= <-] Hstop. congruence.
Qed.

Lemma range_for_run {A} (P : A → @world U → @event U → Prop)
    (after : @event U → @world U) (body : A → M bool) (xs : list A) w :
  (∀ x w0, ∃ e, body x w0 = Some (ev_ret e, after e, [e]) ∧ P x w0 e) →
  ∃ result w' log,
    range_for xs body w = Some (result, w', log)
    ∧ stop_semantics (length xs) result log
    ∧ (∀ i e, log !! i = Some e →
              ∃ x, xs !! i = Some x ∧ P x (entered_from after w log i) e)
    ∧ w' = from_option after w (last log).
Proof.
  intros Hbody. revert w. induction xs as [|x xs IH]; intros w.
  - exists true, w, []. split; [done|]. split; [apply stop_semantics_nil|].
    split; [|done]. intros i e Hi. by rewrite lookup_nil in Hi.
  - destruct (Hbody x w) as (e & He & HP). simpl.
    rewrite (bind_run _ _ _ _ _ _ He).
    destruct (ev_ret e) eqn:Hret.
    + destruct (IH (after e)) as (result & w' & log & Hrun & Hstop & Hev & Hw').
      rewrite Hrun. exists result, w', (e :: log).
      split; [done|]. split; [by apply stop_semantics_continue|]. split.
      * intros [|i] e' Hi; simpl in Hi.
        { injection Hi as <-. exists x. by split. }
        destruct (Hev i e' Hi) as (x' & Hx' & HP').
        exists x'. split; [done|].
        destruct i as [|j]; simpl in *; [done|].
        destruct (log !! j) eqn:Hj; [done|].
        apply lookup_ge_None in Hj. apply lookup_lt_Some in Hi. lia.
      * rewrite Hw'. destruct log as [|e0 log]; [done|].
        rewrite last_cons_cons.
        by destruct (proj2 (last_is_Some (e0 :: log)) ltac:(done)) as [? ->].
    + exists false, (after e), [e].
      split; [done|]. split; [by apply stop_semantics_stop|]. split; [|done].
      intros [|i] e' Hi; simpl in Hi; [|by rewrite lookup_nil in Hi].
      injection Hi as <-. exists x. by split.
Qed.

(** The body that the occurrence queries and the relation loop run for
    each element. *)
Lemma forward_run receiver value w0 :
  ∃ e, (make_object value ≫= call receiver) w0
       = Some (ev_ret e, world_after receiver e, [e])
       ∧ wraps_and_calls receiver value w0 e.
Proof.
  pose proof (make_object_run value w0) as Hmk.
  set (h := new_address (mem w0)) in *.
  set (wb := World _ _) in Hmk.
  exists (ReceiverCall h wb (receiver h wb).1).
  split; [|by exists h, wb].
  rewrite (bind_run _ _ _ _ _ _ Hmk). unfold call. simpl.
  by destruct (receiver h wb).
Qed.

Lemma bind_run_silent {A B} (m : M A) (f : A → M B) w a w1 :
  m w = Some (a, w1, []) → (m ≫= f) w = f a w1.
Proof.
  intros H. rewrite (bind_run _ _ _ _ _ _ H).
  by destruct (f a w1) as [[[? ?] ?]|].
Qed.

Lemma occurrence_stream_run (matches : list SymbolOccurrence.t) receiver w :
  ∃ result w' log,
    range_for matches (forward_occurrence receiver) w = Some (result, w', log)
    ∧ stop_semantics (length matches) result log
    ∧ (∀ i e, log !! i = Some e →
         ∃ o, matches !! i = Some o
              ∧ wraps_and_calls receiver (SymbolOccurrenceRef o)
                  (entered_from (world_after receiver) w log i) e)
    ∧ w' = from_option (world_after receiver) w (last log).
Proof.
  apply (range_for_run
           (λ o w0 e, wraps_and_calls receiver (SymbolOccurrenceRef o) w0 e)).
  intros o w0. apply forward_run.
Qed.

Lemma relation_stream_run (relations : list SymbolRelation.t) applier w :
  ∃ result w' log,
    range_for relations
      (λ rel, r ← make_object (SymbolRelationValue rel);
              continue ← call applier r; mret continue) w
    = Some (result, w', log)
    ∧ stop_semantics (length relations) result log
    ∧ (∀ i e, log !! i = Some e →
         ∃ rel, relations !! i = Some rel
                ∧ wraps_and_calls applier (SymbolRelationValue rel)
                    (entered_from (world_after applier) w log i) e)
    ∧ w' = from_option (world_after applier) w (last log).
Proof.
  apply (range_for_run
           (λ rel w0 e, wraps_and_calls applier (SymbolRelationValue rel) w0 e)).
  intros rel w0.
  pose proof (make_object_run (SymbolRelationValue rel) w0) as Hmk.
  set (h := new_address (mem w0)) in *. set (wb := World _ _) in Hmk.
  exists (ReceiverCall h wb (applier h wb).1).
  split; [|by exists h, wb].
  rewrite (bind_run_silent _ _ _ _ _ Hmk). unfold call, mbind, M_bind. simpl.
  by destruct (applier h wb).
Qed.


Lemma wraps_and_calls_invocation receiver value w0 (e : @event U) :
  wraps_and_calls receiver value w0 e → invocation_of receiver e.
Proof. intros (h & wb & _ & ->). by exists h, wb. Qed.

Lemma Forall_of_lookup {A B} (P : B → Prop) (Q : A → nat → B → Prop)
    (xs : list A) (l : list B) :
  (∀ i e, l !! i = Some e → ∃ x, xs !! i = Some x ∧ Q x i e) →
  (∀ x i e, Q x i e → P e) → Forall P l.
Proof.
  intros H HQ. apply Forall_lookup. intros i e Hi.
  destruct (H i e Hi) as (x & _ & Hq). eauto.
Qed.


(** *** Streaming *)

Lemma with_index_run {A} index RefCount i (f : IndexSystem.t → M A) w :
  mem w !! index = Some (IndexStoreDBObject RefCount (IndexSystemRef i)) →
  (as_IndexSystem index ≫= f) w = f i w.
Proof. intros H. apply bind_run_silent. by eapply as_IndexSystem_run. Qed.

Lemma with_occurrence_run {A} occur RefCount o (f : SymbolOccurrence.t → M A) w :
  mem w !! occur = Some (IndexStoreDBObject RefCount (SymbolOccurrenceRef o)) →
  (as_SymbolOccurrence occur ≫= f) w = f o w.
Proof. intros H. apply bind_run_silent. by eapply as_SymbolOccurrence_run. Qed.


(** *** Handles *)

(** C6: [indexstoredb_retain], [indexstoredb_release] and
    [indexstoredb_error_dispose] return without a fault when given a null
    pointer, call no block and leave the world as it was; [retain] returns
    the null pointer. *)
Theorem null_is_ignored w :
  indexstoredb_retain nullptr w = Some (nullptr, w, [])
  ∧ indexstoredb_release nullptr w = Some (tt, w, [])
  ∧ indexstoredb_error_dispose nullptr w = Some (tt, w, []).
Proof. by repeat split. Qed.

Lemma retain_run h RefCount value w :
  h ≠ nullptr →
  mem w !! h = Some (IndexStoreDBObject RefCount value) →
  indexstoredb_retain h w
  = Some (h, World (<[h := IndexStoreDBObject (RefCount + 1) value]> (mem w))
                   (user w), []).
Proof.
  intros Hnn Hh. unfold indexstoredb_retain. rewrite decide_True by done.
  by rewrite (bind_run_silent _ _ _ _ _ (Retain_run _ _ _ _ Hh)).
Qed.

Lemma occurrence_symbol_run occur RefCount o w :
  mem w !! occur = Some (IndexStoreDBObject RefCount (SymbolOccurrenceRef o)) →
  indexstoredb_symbol_occurrence_symbol occur w
  = make_object (SymbolRef (SymbolOccurrence.getSymbol o)) w.
Proof.
  intros H. unfold indexstoredb_symbol_occurrence_symbol.
  by rewrite (with_occurrence_run _ _ _ _ _ H).
Qed.

Lemma relation_get_symbol_run relation RefCount r w :
  mem w !! relation
    = Some (IndexStoreDBObject RefCount (SymbolRelationValue r)) →
  indexstoredb_symbol_relation_get_symbol relation w
  = make_object (SymbolRef (SymbolRelation.getSymbol r)) w.
Proof.
  intros H. unfold indexstoredb_symbol_relation_get_symbol.
  by rewrite (bind_run_silent _ _ _ _ _ (as_SymbolRelation_run _ _ _ _ H)).
Qed.







(** *** The error channel *)




Lemma new_run c w :
  new c w = Some (new_address (mem w),
                  World (<[new_address (mem w) := c]> (mem w)) (user w), []).
Proof. done. Qed.

Lemma store_error_run error old e w :
  mem w !! error = Some (ErrorVariable old) →
  store_error error e w
  = Some (tt, World (<[error := ErrorVariable e]> (mem w)) (user w), []).
Proof.
  intros H. unfold store_error.
  rewrite (bind_run_silent _ _ _ _ _ (load_run _ _ _ H)). unfold store.
  by rewrite H.
Qed.

Lemma construct_reports {A} (wrap : A → payload)
    (collaborator : @world U → option A * string * @world U)
    error made errMsg w1 w :
  collaborator w = (made, errMsg, w1) →
  (error = nullptr ∨ ∃ old, mem w1 !! error = Some (ErrorVariable old)) →
  reports_through (wrap <$> made) errMsg error w1
    (('(x, errMsg) ← (λ w,
          let '(r, w') := collaborator w in Some (r, w', []));
      match x with
      | Some x => make_object (wrap x)
      | None =>
          if decide (error ≠ nullptr) then
            e ← new (IndexStoreDBError errMsg);
            store_error error e;;
            mret nullptr
          else mret nullptr
      end) w).
Proof.
  intros Hrun Herror. unfold reports_through.
  erewrite bind_run_silent; [|by rewrite Hrun].
  destruct made as [x|]; simpl.
  - rewrite make_object_run. eexists _, _. split; [done|]. simpl.
    split; [done|]. split; [apply new_address_nonnull|].
    split; [apply new_address_unused|]. split; [done|].
    apply lookup_insert_ne. destruct Herror as [->|[old Hold]].
    + apply new_address_nonnull.
    + intros Heq. rewrite <- Heq, new_address_unused in Hold. done.
  - destruct (decide (error = nullptr)) as [->|Hnn].
    + rewrite decide_False by (by intros []). by eexists _, _.
    + rewrite decide_True by done.
      destruct Herror as [?|[old Hold]]; [done|].
      set (e := new_address (mem w1)).
      assert (e ≠ error) as Hne.
      { intros Heq. pose proof (new_address_unused (mem w1)) as Hu.
        fold e in Hu. rewrite Heq, Hold in Hu. done. }
      rewrite (bind_run_silent _ _ _ _ _ (new_run _ _)). fold e.
      erewrite bind_run_silent;
        [|apply (store_error_run _ old); simpl; by rewrite lookup_insert_ne].
      eexists _, _. split; [done|]. simpl. split; [done|]. split; [done|].
      exists e. split; [apply new_address_nonnull|].
      split; [apply new_address_unused|]. split; [done|].
      unfold indexstoredb_error_get_description.
      erewrite (bind_run_silent _ _ _ (IndexStoreDBError errMsg)); [done|].
      apply load_run. simpl.
      rewrite lookup_insert_ne by done. apply lookup_insert_eq.
Qed.


(** *** Symbol kinds through the facade *)

(** C9: [indexstoredb_symbol_kind] on a live symbol returns
    [toCSymbolKind] of its kind and changes nothing.  [toCSymbolKind] is a
    function into the constants of the public enumeration other than
    [INDEXSTOREDB_SYMBOL_KIND_USING] (26): each kind with a case gets its
    namesake, and a kind without one, [SymbolKind::Using] included, gets
    [INDEXSTOREDB_SYMBOL_KIND_UNKNOWN] (0).  So
    [indexstoredb_symbol_kind] never returns
    [INDEXSTOREDB_SYMBOL_KIND_USING]. *)
Theorem symbol_kind_never_using symbol RefCount s w :
  mem w !! symbol = Some (IndexStoreDBObject RefCount (SymbolRef s)) →
  indexstoredb_symbol_kind symbol w
    = Some (toCSymbolKind (Symbol.getSymbolKind s), w, [])
  ∧ (∀ K, toCSymbolKind K ∈ symbol_kind_range)
  ∧ (∀ K, toCSymbolKind K ≠ INDEXSTOREDB_SYMBOL_KIND_USING)
  ∧ toCSymbolKind
      <$> [ SK_Unknown; SK_Module; SK_Namespace; SK_NamespaceAlias; SK_Macro;
            SK_Enum; SK_Struct; SK_Class; SK_Protocol; SK_Extension; SK_Union;
            SK_TypeAlias; SK_Function; SK_Variable; SK_Parameter; SK_Field;
            SK_EnumConstant; SK_InstanceMethod; SK_ClassMethod;
            SK_StaticMethod; SK_InstanceProperty; SK_ClassProperty;
            SK_StaticProperty; SK_Constructor; SK_Destructor;
            SK_ConversionFunction; SK_CommentTag ]
    = [ 0; 1; 2; 3; 4; 5; 6; 7; 8; 9; 10; 11; 12; 13; 25; 14; 15; 16; 17; 18;
        19; 20; 21; 22; 23; 24; 1000 ]
  ∧ toCSymbolKind SK_Using = INDEXSTOREDB_SYMBOL_KIND_UNKNOWN
  ∧ (∀ raw, toCSymbolKind (SK_Unlisted raw) = INDEXSTOREDB_SYMBOL_KIND_UNKNOWN)
  ∧ INDEXSTOREDB_SYMBOL_KIND_UNKNOWN = 0
  ∧ INDEXSTOREDB_SYMBOL_KIND_USING = 26
  ∧ (∀ symbol' w0 k w' log,
       indexstoredb_symbol_kind symbol' w0 = Some (k, w', log) →
       k ≠ INDEXSTOREDB_SYMBOL_KIND_USING).
Proof.
  intros Hsym.
  split.
  { unfold indexstoredb_symbol_kind.
    by rewrite (bind_run_silent _ _ _ _ _ (as_Symbol_run _ _ _ _ Hsym)). }
  split; [apply toCSymbolKind_range|].
  split; [apply toCSymbolKind_not_using|].
  do 5 (split; [done|]).
  intros symbol' w0 k w' log. unfold indexstoredb_symbol_kind.
  unfold mbind, M_bind. destruct (as_Symbol symbol' w0) as [[[s' ?] ?]|]; [|done].
  intros [= <- _ _]. apply toCSymbolKind_not_using.
Qed.

(** *** What the index queries stream *)

Lemma matches_roles_meet roles roleMask :
  IndexSystem.matches_roles roles roleMask = true →
  roleMask ≠ 0%N → N.land roles roleMask ≠ 0%N.
Proof.
  unfold IndexSystem.matches_roles. intros H Hmask.
  rewrite bool_decide_eq_false_2 in H by done. simpl in H.
  apply negb_true_iff, N.eqb_neq in H. done.
Qed.

Lemma occurrence_roles_run occur RefCount o w :
  mem w !! occur = Some (IndexStoreDBObject RefCount (SymbolOccurrenceRef o)) →
  indexstoredb_symbol_occurrence_roles occur w
  = Some (SymbolOccurrence.getRoles o, w, []).
Proof.
  intros H. unfold indexstoredb_symbol_occurrence_roles.
  by rewrite (with_occurrence_run _ _ _ _ _ H).
Qed.

Lemma symbol_usr_run symbol RefCount s w :
  mem w !! symbol = Some (IndexStoreDBObject RefCount (SymbolRef s)) →
  indexstoredb_symbol_usr symbol w = Some (Symbol.getUSR s, w, []).
Proof.
  intros H. unfold indexstoredb_symbol_usr.
  by rewrite (bind_run_silent _ _ _ _ _ (as_Symbol_run _ _ _ _ H)).
Qed.

(** A stream over [matches]: it returns, every invocation hands over one
    of the matches, and a stream that was not stopped has handed over all of
    them, each once and in order. *)
Lemma occurrence_stream_elements (matches : list SymbolOccurrence.t)
    receiver w :
  ∃ result w' log,
    range_for matches (forward_occurrence receiver) w = Some (result, w', log)
    ∧ Forall (λ e, ∃ o, o ∈ matches ∧ streamed_occurrence e o) log
    ∧ (result = true → Forall2 streamed_occurrence log matches).
Proof.
  destruct (occurrence_stream_run matches receiver w)
    as (result & w' & log & Hrun & Hstop & Hev & _).
  assert (Hstreamed : ∀ j e, log !! j = Some e →
            ∃ o, matches !! j = Some o ∧ streamed_occurrence e o).
  { intros j e Hj. destruct (Hev j e Hj) as (o & Ho & h & wb & Hmk & ->).
    apply make_object_owned in Hmk as (_ & _ & Hown & _).
    exists o. split; [done|]. by exists h, wb, (receiver h wb).1. }
  exists result, w', log. split; [done|]. split.
  - apply Forall_lookup. intros j e Hj.
    destruct (Hstreamed j e Hj) as (o & Ho & Hs).
    exists o. split; [by eapply list_elem_of_lookup_2 | done].
  - intros Htrue. destruct Hstop as (_ & _ & _ & Hlen & _).
    apply Forall2_same_length_lookup_2; [by apply Hlen|].
    intros j e o Hj Ho. destruct (Hstreamed j e Hj) as (o' & Ho' & Hs).
    congruence.
Qed.

Lemma streamed_occurrence_roles (e : @event U) o :
  streamed_occurrence e o → streamed_roles e (SymbolOccurrence.getRoles o).
Proof.
  intros (h & wb & r & -> & _ & Hh). exists h, wb, r.
  split; [done|]. by eapply occurrence_roles_run.
Qed.

Lemma streamed_occurrence_usr (e : @event U) o :
  streamed_occurrence e o →
  streamed_usr e (Symbol.getUSR (SymbolOccurrence.getSymbol o)).
Proof.
  intros (h & wb & r & -> & _ & Hh).
  pose proof (make_object_run (SymbolRef (SymbolOccurrence.getSymbol o)) wb)
    as Hmk.
  eexists h, wb, r, _, _. split; [done|].
  split; [by rewrite (occurrence_symbol_run _ _ _ _ Hh)|].
  eapply symbol_usr_run. simpl. apply lookup_insert_eq.
Qed.

Lemma masked_stream (select : SymbolOccurrence.t → bool) roleMask
    (occs : list SymbolOccurrence.t) receiver w :
  streams_masked select roleMask occs receiver
    (range_for
       (filter (λ o, select o
                     && IndexSystem.matches_roles (SymbolOccurrence.getRoles o)
                          roleMask) occs)
       (forward_occurrence receiver) w).
Proof.
  unfold streams_masked. set (selected := filter _ occs).
  destruct (occurrence_stream_run selected receiver w)
    as (result & w' & log & Hrun & Hstop & Hev & _).
  assert (Hstreamed : ∀ j e, log !! j = Some e →
            ∃ o, selected !! j = Some o ∧ streamed_occurrence e o).
  { intros j e Hj. destruct (Hev j e Hj) as (o & Ho & h & wb & Hmk & ->).
    apply make_object_owned in Hmk as (_ & _ & Hown & _).
    exists o. split; [done|]. by exists h, wb, (receiver h wb).1. }
  assert (Hprefix : Forall2 streamed_occurrence log
                      (take (length log) selected)).
  { destruct Hstop as (_ & _ & Hle & _).
    apply Forall2_same_length_lookup_2; [by rewrite length_take_le|].
    intros j e o Hj [Ho _]%lookup_take_Some.
    destruct (Hstreamed j e Hj) as (o' & Ho' & Hs). congruence. }
  assert (Hunmasked : roleMask = 0%N → selected = filter (λ o, select o) occs).
  { intros ->. apply list_filter_iff. intros o.
    unfold IndexSystem.matches_roles.
    rewrite bool_decide_eq_true_2 by done. simpl. by rewrite andb_true_r. }
  exists result, w', log. split; [done|]. split; [done|]. split.
  { apply (Forall_of_lookup _ _ _ _ Hev).
    intros o j e. apply wraps_and_calls_invocation. }
  split.
  { apply Forall_lookup. intros j e Hj.
    destruct (Hstreamed j e Hj) as (o & Ho & Hs).
    exists (SymbolOccurrence.getRoles o).
    split; [by apply streamed_occurrence_roles|].
    apply list_elem_of_lookup_2 in Ho.
    apply list_elem_of_filter in Ho as [[_ Hroles]%andb_prop_elim _].
    apply matches_roles_meet. by apply Is_true_true. }
  split; [done|]. split.
  { intros Hzero. by rewrite <- (Hunmasked Hzero). }
  intros Hzero Htrue. rewrite <- (Hunmasked Hzero).
  destruct Hstop as (_ & _ & _ & Hlen & _).
  by rewrite <- (take_ge selected (length log)) by (rewrite Hlen; [lia|done]).
Qed.

(** C3: in the three queries that take a role mask, every occurrence
    handed to the receiver has, when the mask is not zero, a role set that
    meets the mask ([roles & roleMask != 0], read through
    [indexstoredb_symbol_occurrence_roles]).  With a mask of zero the roles
    play no part: the occurrences handed over are the ones the other
    criterion selects, in order and one per invocation, all of them when
    the query is not stopped and the first ones up to the stop when it is;
    a false result is always a stop by the receiver, and there is an
    invocation whenever an occurrence is selected.  ([streams_masked]
    spells this out.) *)
Theorem role_mask_filters index RefCount i roleMask receiver w :
  mem w !! index = Some (IndexStoreDBObject RefCount (IndexSystemRef i)) →
  (∀ usr,
     streams_masked
       (λ o, IndexSystem.has_usr usr (SymbolOccurrence.getSymbol o))
       roleMask (IndexSystem.occurrences i) receiver
       (indexstoredb_index_symbol_occurrences_by_usr index usr roleMask
          receiver w))
  ∧ (∀ usr,
       streams_masked
         (λ o, existsb (λ r, IndexSystem.has_usr usr
                               (SymbolRelation.getSymbol r))
                       (SymbolOccurrence.getRelations o))
         roleMask (IndexSystem.occurrences i) receiver
         (indexstoredb_index_related_symbol_occurrences_by_usr index usr
            roleMask receiver w))
  ∧ (∀ path line utf8Column,
       streams_masked
         (λ o, IndexSystem.at_location path line utf8Column
                 (SymbolOccurrence.getLocation o))
         roleMask (IndexSystem.occurrences i) receiver
         (indexstoredb_index_symbol_occurrences_at_location index path line
            utf8Column roleMask receiver w)).
Proof.
  intros Hindex. split; [|split].
  - intros usr. unfold indexstoredb_index_symbol_occurrences_by_usr.
    rewrite (with_index_run _ _ _ _ _ Hindex).
    apply (masked_stream
             (λ o, IndexSystem.has_usr usr (SymbolOccurrence.getSymbol o))).
  - intros usr. unfold indexstoredb_index_related_symbol_occurrences_by_usr.
    rewrite (with_index_run _ _ _ _ _ Hindex).
    apply (masked_stream
             (λ o, existsb (λ r, IndexSystem.has_usr usr
                                   (SymbolRelation.getSymbol r))
                           (SymbolOccurrence.getRelations o))).
  - intros path line utf8Column.
    unfold indexstoredb_index_symbol_occurrences_at_location.
    rewrite (with_index_run _ _ _ _ _ Hindex).
    apply (masked_stream
             (λ o, IndexSystem.at_location path line utf8Column
                     (SymbolOccurrence.getLocation o))).
Qed.

(** C7: every occurrence that [indexstoredb_index_symbol_occurrences_by_usr]
    hands to the receiver has a symbol whose USR, read through
    [indexstoredb_symbol_occurrence_symbol] and [indexstoredb_symbol_usr],
    is the string that was asked for. *)
Theorem by_usr_streams_that_usr index RefCount i usr roles receiver w :
  mem w !! index = Some (IndexStoreDBObject RefCount (IndexSystemRef i)) →
  ∃ result w' log,
    indexstoredb_index_symbol_occurrences_by_usr index usr roles receiver w
      = Some (result, w', log)
    ∧ Forall (λ e, streamed_usr e usr) log.
Proof.
  intros Hindex. unfold indexstoredb_index_symbol_occurrences_by_usr.
  rewrite (with_index_run _ _ _ _ _ Hindex).
  unfold IndexSystem_foreachSymbolOccurrenceByUSR.
  destruct (occurrence_stream_elements
              (IndexSystem.occurrencesByUSR i usr roles) receiver w)
    as (result & w' & log & Hrun & Hin & _).
  exists result, w', log. split; [done|].
  eapply Forall_impl; [exact Hin|]. simpl. intros e (o & Ho & Hs).
  apply list_elem_of_filter in Ho as [[Husr _]%andb_prop_elim _].
  unfold IndexSystem.has_usr in Husr. apply bool_decide_unpack in Husr.
  rewrite <- Husr. by apply streamed_occurrence_usr.
Qed.

End FacadeProperties.

(** * Further properties of the code *)

(** ** The enumerations as a caller uses them *)

Lemma role_shift_inj r1 r2 : role_shift r1 = role_shift r2 → r1 = r2.
Proof. destruct r1, r2; simpl; intros H; first [done | lia]. Qed.

Lemma role_value_bit r n :
  r ≠ INDEXSTOREDB_SYMBOL_ROLE_CANONICAL → 0 ≤ n →
  Z.testbit (default 0 (role_value r)) n = bool_decide (role_shift r = n).
Proof.
  intros Hr Hn. rewrite role_value_small by (destruct r; simpl; done || lia).
  simpl. rewrite Z.shiftl_1_l, Z.pow2_bits_eqb by (destruct r; simpl; lia).
  destruct (Z.eqb_spec (role_shift r) n).
  - by rewrite bool_decide_eq_true_2.
  - by rewrite bool_decide_eq_false_2.
Qed.

(** A role set built by OR-ing flags other than the canonical one can be
    taken apart again: the bit of a flag is set in the OR exactly when the
    flag is a member, and the OR stays within the low 19 bits. *)
Theorem role_set_keeps_its_members flags r :
  INDEXSTOREDB_SYMBOL_ROLE_CANONICAL ∉ flags →
  r ≠ INDEXSTOREDB_SYMBOL_ROLE_CANONICAL →
  Z.testbit (role_set_value flags) (role_shift r) = bool_decide (r ∈ flags)
  ∧ 0 ≤ role_set_value flags < 2 ^ 19.
Proof.
  intros Hflags Hr.
  assert (Hbits : ∀ n, 0 ≤ n →
    Z.testbit (role_set_value flags) n = true
    ↔ ∃ r', r' ∈ flags ∧ role_shift r' = n).
  { intros n Hn. induction flags as [|r' flags IH]; simpl.
    - rewrite Z.bits_0. split; [done|].
      intros (? & []%elem_of_nil & _).
    - apply not_elem_of_cons in Hflags as [Hne Hflags].
      rewrite Z.lor_spec, orb_true_iff, IH, role_value_bit by done.
      rewrite bool_decide_eq_true. split.
      + intros [<-|(r'' & Hin & <-)].
        * exists r'. split; [apply list_elem_of_here | done].
        * exists r''. split; [by apply list_elem_of_further | done].
      + intros (r'' & [->|Hin]%elem_of_cons & <-); [by left|].
        right. by exists r''. }
  assert (Hnonneg : 0 ≤ role_set_value flags).
  { clear Hbits Hflags. induction flags as [|r' flags IH]; simpl; [done|].
    apply Z.lor_nonneg. split; [|done].
    unfold role_value, CInt.shl. case_decide; simpl; [|done].
    by apply Z.shiftl_nonneg. }
  split.
  - apply eq_true_iff_eq.
    rewrite Hbits, bool_decide_eq_true by (destruct r; simpl; lia). split.
    + by intros (r' & Hin & ->%role_shift_inj).
    + intros Hin. by exists r.
  - apply Z.bounded_iff_bits_nonneg'; [lia|done|].
    intros n Hn. apply not_true_is_false. rewrite Hbits by lia.
    intros (r' & Hin & Hshift).
    assert (r' ≠ INDEXSTOREDB_SYMBOL_ROLE_CANONICAL) by (by intros ->).
    destruct r'; simpl in Hshift; done || lia.
Qed.

(** [toCSymbolKind] keeps the kinds that have a case apart: two of them
    with the same constant are the same kind.  It answers
    [INDEXSTOREDB_SYMBOL_KIND_UNKNOWN] only for [SymbolKind::Unknown] and for
    the kinds without a case, so only those are lost. *)
Theorem toCSymbolKind_loses_only_unlisted_kinds :
  (∀ K, toCSymbolKind K = INDEXSTOREDB_SYMBOL_KIND_UNKNOWN
        ↔ K = SK_Unknown ∨ has_case K = false)
  ∧ (∀ K1 K2, has_case K1 = true → has_case K2 = true →
              toCSymbolKind K1 = toCSymbolKind K2 → K1 = K2)
  ∧ NoDup (INDEXSTOREDB_SYMBOL_KIND_USING :: symbol_kind_range).
Proof.
  split; [|split].
  - intros K. split.
    + destruct K; simpl; intros H; first [by left | by right | done].
    + intros [->|H]; [done|]. by destruct K.
  - intros K1 K2 H1 H2.
    destruct K1; try done; destruct K2; try done.
  - apply (bool_decide_unpack _). by vm_compute.
Qed.

(** ** Reference counts over several calls *)

Section FacadeFurther.

Context {U : Type} {allocator : Allocator}.
Context (IndexSystem_create :
  string → string → @library_provider_t U → bool → bool →
  @world U → option IndexSystem.t * string * @world U).
Context (loadIndexStoreLibrary :
  string → @world U → option IndexStoreLibrary * string * @world U).

Implicit Types (w : @world U) (log : list (@event U)) (h obj : N)
  (value : payload).

Lemma world_eta w m : m = mem w → World m (user w) = w.
Proof. intros ->. by destruct w. Qed.

Lemma release_run h RefCount value w :
  h ≠ nullptr →
  mem w !! h = Some (IndexStoreDBObject RefCount value) →
  indexstoredb_release h w
  = Some (tt,
          World (if decide (RefCount = 1) then delete h (mem w)
                 else <[h := IndexStoreDBObject (RefCount - 1) value]> (mem w))
                (user w), []).
Proof.
  intros Hnn Hh. unfold indexstoredb_release. rewrite decide_True by done.
  by apply Release_run.
Qed.

Lemma times_retain k h RefCount value w :
  h ≠ nullptr →
  mem w !! h = Some (IndexStoreDBObject RefCount value) →
  times k (indexstoredb_retain h) w
  = Some (tt,
          World (<[h := IndexStoreDBObject (RefCount + Z.of_nat k) value]>
                   (mem w)) (user w), []).
Proof.
  intros Hnn. revert RefCount w. induction k as [|k IH]; intros RefCount w Hh.
  - simpl. rewrite Z.add_0_r, insert_id by done.
    by rewrite (world_eta w).
  - cbn [times].
    rewrite (bind_run_silent _ _ _ _ _ (retain_run _ _ _ _ Hnn Hh)).
    rewrite (IH (RefCount + 1)) by (simpl; apply lookup_insert_eq).
    simpl. rewrite insert_insert_eq.
    by replace (RefCount + 1 + Z.of_nat k) with (RefCount + Z.of_nat (S k))
      by lia.
Qed.

Lemma times_release k h RefCount value w :
  h ≠ nullptr →
  mem w !! h = Some (IndexStoreDBObject RefCount value) →
  Z.of_nat k < RefCount →
  times k (indexstoredb_release h) w
  = Some (tt,
          World (<[h := IndexStoreDBObject (RefCount - Z.of_nat k) value]>
                   (mem w)) (user w), []).
Proof.
  intros Hnn. revert RefCount w. induction k as [|k IH]; intros RefCount w Hh Hk.
  - simpl. rewrite Z.sub_0_r, insert_id by done.
    by rewrite (world_eta w).
  - cbn [times].
    rewrite (bind_run_silent _ _ _ _ _ (release_run _ _ _ _ Hnn Hh)).
    rewrite decide_False by lia.
    rewrite (IH (RefCount - 1)); [|simpl; apply lookup_insert_eq|lia].
    simpl. rewrite insert_insert_eq.
    by replace (RefCount - 1 - Z.of_nat k) with (RefCount - Z.of_nat (S k))
      by lia.
Qed.

(** Retains and releases balance: on a live object whose count is
    positive, [k] calls of [indexstoredb_retain] followed by [k] calls of
    [indexstoredb_release] leave the world exactly as it was.  (With a
    count of zero the last release would destroy the object.) *)
Theorem retains_and_releases_balance k h RefCount value w :
  h ≠ nullptr →
  mem w !! h = Some (IndexStoreDBObject RefCount value) →
  0 < RefCount →
  (times k (indexstoredb_retain h);; times k (indexstoredb_release h)) w
  = Some (tt, w, []).
Proof.
  intros Hnn Hh Hpos.
  rewrite (bind_run_silent _ _ _ _ _ (times_retain k _ _ _ _ Hnn Hh)).
  rewrite (times_release k h (RefCount + Z.of_nat k) value);
    [|done|simpl; apply lookup_insert_eq|lia].
  simpl. rewrite insert_insert_eq.
  replace (RefCount + Z.of_nat k - Z.of_nat k) with RefCount by lia.
  by rewrite insert_id, (world_eta w).
Qed.

(** An object with count [n] survives [n - 1] releases and is destroyed by
    the [n]-th: fewer than [n] releases only lower the count, [n] releases
    remove the object and nothing else. *)
Theorem nth_release_destroys n h value w :
  h ≠ nullptr →
  mem w !! h = Some (IndexStoreDBObject (Z.of_nat (S n)) value) →
  (∀ k, (k ≤ n)%nat →
     times k (indexstoredb_release h) w
     = Some (tt,
             World (<[h := IndexStoreDBObject (Z.of_nat (S n - k)) value]>
                      (mem w)) (user w), []))
  ∧ times (S n) (indexstoredb_release h) w
    = Some (tt, World (delete h (mem w)) (user w), []).
Proof.
  intros Hnn Hh.
  assert (Hfew : ∀ k, (k ≤ n)%nat →
     times k (indexstoredb_release h) w
     = Some (tt,
             World (<[h := IndexStoreDBObject (Z.of_nat (S n - k)) value]>
                      (mem w)) (user w), [])).
  { intros k Hk. rewrite (times_release k h _ value w Hnn Hh) by lia.
    by replace (Z.of_nat (S n) - Z.of_nat k) with (Z.of_nat (S n - k))
      by lia. }
  split; [done|].
  revert w Hh Hfew. induction n as [|n IH]; intros w Hh _.
  - cbn [times].
    rewrite (bind_run_silent _ _ _ _ _ (release_run _ _ _ _ Hnn Hh)).
    by rewrite decide_True by done.
  - cbn [times].
    rewrite (bind_run_silent _ _ _ _ _ (release_run _ _ _ _ Hnn Hh)).
    rewrite decide_False by lia.
    cbn [times] in IH. rewrite IH.
    + simpl. by rewrite delete_insert_eq.
    + simpl. rewrite lookup_insert_eq.
      by replace (Z.of_nat (S (S n)) - 1) with (Z.of_nat (S n)) by lia.
    + intros k Hk.
      rewrite (times_release k h (Z.of_nat (S n)) value); [| done | | lia].
      * by replace (Z.of_nat (S n) - Z.of_nat k) with (Z.of_nat (S n - k))
          by lia.
      * simpl. rewrite lookup_insert_eq.
        by replace (Z.of_nat (S (S n)) - 1) with (Z.of_nat (S n)) by lia.
Qed.

(** ** Errors and construction *)

Lemma dispose_run e message w :
  e ≠ nullptr →
  mem w !! e = Some (IndexStoreDBError message) →
  indexstoredb_error_dispose e w
  = Some (tt, World (delete e (mem w)) (user w), []).
Proof.
  intros Hnn He. unfold indexstoredb_error_dispose.
  rewrite decide_True by done.
  rewrite (bind_run_silent _ _ _ _ _ (load_run _ _ _ He)).
  unfold delete_. by rewrite He.
Qed.

Lemma dispose_run_cell e message w :
  mem w !! e = Some (IndexStoreDBError message) →
  (c ← load e;
   match c with
   | IndexStoreDBError _ => delete_ e
   | _ => fault
   end) w
  = Some (tt, World (delete e (mem w)) (user w), []).
Proof.
  intros He. rewrite (bind_run_silent _ _ _ _ _ (load_run _ _ _ He)).
  unfold delete_. by rewrite He.
Qed.

(** A failed [indexstoredb_index_create] followed by reading the message
    and [indexstoredb_error_dispose] leaks nothing: the message is the
    text [IndexSystem::create] left, and afterwards the heap is as
    [IndexSystem::create] left it except that the caller's variable still
    holds the address of the disposed error object, which is free again. *)
Theorem failed_create_then_dispose
    storePath databasePath libProvider readonly listenToUnitEvents error
    errMsg w1 old w :
  IndexSystem_create storePath databasePath libProvider readonly
    listenToUnitEvents w = (None, errMsg, w1) →
  error ≠ nullptr →
  mem w1 !! error = Some (ErrorVariable old) →
  ∃ e,
    e ≠ nullptr
    ∧ mem w1 !! e = None
    ∧ (h ← indexstoredb_index_create IndexSystem_create storePath
             databasePath libProvider readonly listenToUnitEvents error;
       c ← load error;
       match c with
       | ErrorVariable e =>
           msg ← indexstoredb_error_get_description e;
           indexstoredb_error_dispose e;;
           mret (h, msg)
       | _ => fault
       end) w
      = Some ((nullptr, errMsg),
              World (<[error := ErrorVariable e]> (mem w1)) (user w1), []).
Proof.
  intros Hcreate Hnn Hold.
  destruct (construct_reports IndexSystemRef
              (IndexSystem_create storePath databasePath libProvider readonly
                 listenToUnitEvents) error None errMsg w1 w Hcreate)
    as (h & w' & Hrun & Huser & -> & Hfail); [eauto|].
  rewrite decide_False in Hfail by done.
  destruct Hfail as (e & Hennull & Hefree & Hmem & Hdesc).
  assert (e ≠ error) as Hne by (intros ->; congruence).
  exists e. split; [done|]. split; [done|].
  fold (indexstoredb_index_create IndexSystem_create storePath databasePath
          libProvider readonly listenToUnitEvents error) in Hrun.
  rewrite (bind_run_silent _ _ _ _ _ Hrun).
  erewrite (bind_run_silent _ _ _ (ErrorVariable e));
    [|apply load_run; rewrite Hmem; apply lookup_insert_eq].
  rewrite (bind_run_silent _ _ _ _ _ Hdesc).
  erewrite bind_run_silent;
    [|apply (dispose_run e errMsg); [done|];
      rewrite Hmem, lookup_insert_ne by done; apply lookup_insert_eq].
  unfold mret, M_ret. do 3 f_equal. rewrite <- Huser. f_equal.
  rewrite Hmem, delete_insert_ne by done.
  by rewrite delete_insert_id.
Qed.

Lemma construct_then_release {A} (wrap : A → payload)
    (collaborator : @world U → option A * string * @world U)
    (run : M N) error made errMsg w1 w :
  collaborator w = (Some made, errMsg, w1) →
  run w = (('(x, errMsg) ← (λ w,
               let '(r, w') := collaborator w in Some (r, w', []));
            match x with
            | Some x => make_object (wrap x)
            | None =>
                if decide (error ≠ nullptr) then
                  e ← new (IndexStoreDBError errMsg);
                  store_error error e;;
                  mret nullptr
                else mret nullptr
            end) w) →
  ∃ h w',
    run w = Some (h, w', [])
    ∧ owned_once h (wrap made) w'
    ∧ mem w1 !! h = None
    ∧ indexstoredb_release h w' = Some (tt, w1, []).
Proof.
  intros Hrun ->. erewrite bind_run_silent; [|by rewrite Hrun].
  simpl. rewrite make_object_run. eexists _, _. split; [done|].
  assert (Hown : owned_once (new_address (mem w1)) (wrap made)
            (World (<[new_address (mem w1) := IndexStoreDBObject 1 (wrap made)]>
                      (mem w1)) (user w1))).
  { split; [apply new_address_nonnull | simpl; apply lookup_insert_eq]. }
  split; [done|]. split; [apply new_address_unused|].
  rewrite (release_owned _ _ _ Hown). simpl.
  rewrite delete_insert_id by apply new_address_unused.
  by rewrite (world_eta w1).
Qed.

(** Construction and release undo each other: when the collaborator gives
    an index (or a library), the handle returned holds the only reference
    to a new object wrapping it, whatever [error] points to is not touched,
    and one [indexstoredb_release] brings the world back to where the
    collaborator left it. *)
Theorem construct_then_release_round_trip
    storePath databasePath libProvider readonly listenToUnitEvents error
    new_index errMsg w1 dylibPath errorL lib errMsgL w2 w :
  IndexSystem_create storePath databasePath libProvider readonly
    listenToUnitEvents w = (Some new_index, errMsg, w1) →
  loadIndexStoreLibrary dylibPath w = (Some lib, errMsgL, w2) →
  (∃ h w',
     indexstoredb_index_create IndexSystem_create storePath databasePath
       libProvider readonly listenToUnitEvents error w = Some (h, w', [])
     ∧ owned_once h (IndexSystemRef new_index) w'
     ∧ mem w1 !! h = None
     ∧ indexstoredb_release h w' = Some (tt, w1, []))
  ∧ (∃ h w',
       indexstoredb_load_indexstore_library loadIndexStoreLibrary dylibPath
         errorL w = Some (h, w', [])
       ∧ owned_once h (IndexStoreLibraryRef lib) w'
       ∧ mem w2 !! h = None
       ∧ indexstoredb_release h w' = Some (tt, w2, [])).
Proof.
  intros Hcreate Hload. split.
  - by apply (construct_then_release IndexSystemRef
                (IndexSystem_create storePath databasePath libProvider
                   readonly listenToUnitEvents) _ error new_index errMsg).
  - by apply (construct_then_release IndexStoreLibraryRef
                (loadIndexStoreLibrary dylibPath) _ errorL lib errMsgL).
Qed.

(** The library provider: what the caller's block answers is looked up, not
    retained.  A library handle made by
    [indexstoredb_load_indexstore_library] and answered by the block gives
    back the library that was loaded, and a null answer gives none; in both
    cases the world is the one the block left. *)
Theorem provided_library_is_found dylibPath error lib errMsg w1 w :
  loadIndexStoreLibrary dylibPath w = (Some lib, errMsg, w1) →
  ∃ h w',
    indexstoredb_load_indexstore_library loadIndexStoreLibrary dylibPath
      error w = Some (h, w', [])
    ∧ (∀ callback storePath w2,
         callback storePath w' = (h, w2) →
         mem w2 !! h = mem w' !! h →
         getLibraryForStorePath callback storePath w'
         = Some (Some lib, w2, []))
    ∧ (∀ callback storePath w2,
         callback storePath w' = (nullptr, w2) →
         getLibraryForStorePath callback storePath w' = Some (None, w2, [])).
Proof.
  intros Hload.
  destruct (construct_then_release IndexStoreLibraryRef
              (loadIndexStoreLibrary dylibPath)
              (indexstoredb_load_indexstore_library loadIndexStoreLibrary
                 dylibPath error) error lib errMsg w1 w Hload eq_refl)
    as (h & w' & Hrun & [Hnn Hh] & _ & _).
  exists h, w'. split; [done|]. split.
  - intros callback storePath w2 Hcall Hsame.
    unfold getLibraryForStorePath.
    erewrite bind_run_silent; [|by rewrite Hcall].
    rewrite decide_True by done.
    rewrite <- Hsame in Hh.
    by rewrite (bind_run_silent _ _ _ _ _ (value_of_run _ _ _ _ Hh)).
  - intros callback storePath w2 Hcall.
    unfold getLibraryForStorePath.
    erewrite bind_run_silent; [|by rewrite Hcall].
    by rewrite decide_False by (by intros []).
Qed.

(** ** Reading through handles *)

Lemma describe_symbol_run symbol RefCount s w :
  mem w !! symbol = Some (IndexStoreDBObject RefCount (SymbolRef s)) →
  describe_symbol symbol w = Some (symbol_description s, w, []).
Proof.
  intros H. unfold describe_symbol.
  rewrite (bind_run_silent _ _ _ _ _ (symbol_usr_run _ _ _ _ H)).
  erewrite bind_run_silent;
    [|unfold indexstoredb_symbol_name;
      by rewrite (bind_run_silent _ _ _ _ _ (as_Symbol_run _ _ _ _ H))].
  erewrite bind_run_silent; [done|].
  unfold indexstoredb_symbol_kind.
  by rewrite (bind_run_silent _ _ _ _ _ (as_Symbol_run _ _ _ _ H)).
Qed.

Lemma describe_fresh_symbol (get : M N) s w :
  get w = make_object (SymbolRef s) w →
  describe_and_release get w = Some (symbol_description s, w, []).
Proof.
  intros Hget. unfold describe_and_release.
  rewrite make_object_run in Hget.
  rewrite (bind_run_silent _ _ _ _ _ Hget).
  erewrite bind_run_silent;
    [|eapply describe_symbol_run; simpl; apply lookup_insert_eq].
  erewrite bind_run_silent;
    [|apply (release_owned _ (SymbolRef s));
      split; [apply new_address_nonnull | simpl; apply lookup_insert_eq]].
  simpl. rewrite delete_insert_id by apply new_address_unused.
  by rewrite (world_eta w).
Qed.


Lemma as_SymbolLocation_run occur RefCount o w :
  mem w !! occur = Some (IndexStoreDBObject RefCount (SymbolOccurrenceRef o)) →
  as_SymbolLocation (LocationIn occur) w
  = Some (SymbolOccurrence.getLocation o, w, []).
Proof.
  intros H. unfold as_SymbolLocation. simpl.
  by rewrite (with_occurrence_run _ _ _ _ _ H).
Qed.

Lemma describe_location_run occur RefCount o w :
  mem w !! occur = Some (IndexStoreDBObject RefCount (SymbolOccurrenceRef o)) →
  describe_location (LocationIn occur) w
  = Some (location_description (SymbolOccurrence.getLocation o), w, []).
Proof.
  intros H. pose proof (as_SymbolLocation_run _ _ _ _ H) as Hloc.
  unfold describe_location, indexstoredb_symbol_location_path,
    indexstoredb_symbol_location_is_system, indexstoredb_symbol_location_line,
    indexstoredb_symbol_location_column_utf8.
  erewrite bind_run_silent; [|by rewrite (bind_run_silent _ _ _ _ _ Hloc)].
  erewrite bind_run_silent; [|by rewrite (bind_run_silent _ _ _ _ _ Hloc)].
  erewrite bind_run_silent; [|by rewrite (bind_run_silent _ _ _ _ _ Hloc)].
  erewrite bind_run_silent; [|by rewrite (bind_run_silent _ _ _ _ _ Hloc)].
  done.
Qed.

(** What is returned at type [int] lies in the range of [int], and is the
    number itself when that lies there already. *)
Lemma to_int_range z :
  - 2 ^ 31 ≤ CInt.to_int z < 2 ^ 31.
Proof.
  unfold CInt.to_int, CInt.int_bits.
  pose proof (Z.mod_pos_bound (z + 2 ^ (32 - 1)) (2 ^ 32) ltac:(done)).
  change (2 ^ (32 - 1)) with (2 ^ 31) in *.
  change (2 ^ 32) with (2 * 2 ^ 31) in *. lia.
Qed.

Lemma to_int_representable z :
  - 2 ^ 31 ≤ z < 2 ^ 31 → CInt.to_int z = z.
Proof.
  intros Hz. unfold CInt.to_int, CInt.int_bits.
  change (2 ^ (32 - 1)) with (2 ^ 31).
  rewrite Z.mod_small; [lia|].
  change (2 ^ 32) with (2 * 2 ^ 31). lia.
Qed.

(** The location of an occurrence: the four location accessors, applied to
    the pointer [indexstoredb_symbol_occurrence_location] returns, give the
    path and system flag stored in the occurrence and its line and column
    at type [int] (the stored numbers themselves whenever an [int] can hold
    them, and always within the range of [int]), and change nothing.  The
    pointer holds no reference: it stays readable after other handles come
    and go (here, after the occurrence was retained and released again),
    and when the caller's only reference to the occurrence is released the
    object is destroyed, pointer or not. *)
Theorem location_is_read_not_owned occur RefCount o w :
  occur ≠ nullptr →
  mem w !! occur = Some (IndexStoreDBObject RefCount (SymbolOccurrenceRef o)) →
  0 < RefCount →
  let l := SymbolOccurrence.getLocation o in
  (loc ← indexstoredb_symbol_occurrence_location occur;
   describe_location loc) w
    = Some ((SymbolLocation.getPath l, SymbolLocation.isSystem l,
             CInt.to_int (SymbolLocation.getLine l),
             CInt.to_int (SymbolLocation.getColumn l)), w, [])
  ∧ (- 2 ^ 31 ≤ SymbolLocation.getLine l < 2 ^ 31 →
     CInt.to_int (SymbolLocation.getLine l) = SymbolLocation.getLine l)
  ∧ (- 2 ^ 31 ≤ SymbolLocation.getColumn l < 2 ^ 31 →
     CInt.to_int (SymbolLocation.getColumn l) = SymbolLocation.getColumn l)
  ∧ - 2 ^ 31 ≤ CInt.to_int (SymbolLocation.getLine l) < 2 ^ 31
  ∧ - 2 ^ 31 ≤ CInt.to_int (SymbolLocation.getColumn l) < 2 ^ 31
  ∧ (loc ← indexstoredb_symbol_occurrence_location occur;
     indexstoredb_retain occur;;
     indexstoredb_release occur;;
     describe_location loc) w
    = Some (location_description l, w, [])
  ∧ (RefCount = 1 →
     (loc ← indexstoredb_symbol_occurrence_location occur;
      indexstoredb_release occur;;
      mret loc) w
       = Some (LocationIn occur, World (delete occur (mem w)) (user w), [])).
Proof.
  intros Hnn Hocc Hpos l.
  assert (Hloc : indexstoredb_symbol_occurrence_location occur w
                 = Some (LocationIn occur, w, [])).
  { unfold indexstoredb_symbol_occurrence_location.
    by rewrite (with_occurrence_run _ _ _ _ _ Hocc). }
  split; [|split; [|split; [|split; [|split; [|split]]]]].
  - rewrite (bind_run_silent _ _ _ _ _ Hloc).
    by rewrite (describe_location_run _ _ _ _ Hocc).
  - apply to_int_representable.
  - apply to_int_representable.
  - apply to_int_range.
  - apply to_int_range.
  - rewrite (bind_run_silent _ _ _ _ _ Hloc).
    rewrite (bind_run_silent _ _ _ _ _ (retain_run _ _ _ _ Hnn Hocc)).
    erewrite bind_run_silent;
      [|apply (release_run occur (RefCount + 1));
        [done | simpl; apply lookup_insert_eq]].
    rewrite decide_False by lia. simpl. rewrite insert_insert_eq.
    replace (RefCount + 1 - 1) with RefCount by lia.
    rewrite insert_id by done. rewrite (world_eta w) by done.
    by eapply describe_location_run.
  - intros ->. assert (owned_once occur (SymbolOccurrenceRef o) w) as Hown
      by done.
    rewrite (bind_run_silent _ _ _ _ _ Hloc).
    by rewrite (bind_run_silent _ _ _ _ _ (release_owned _ _ _ Hown)).
Qed.

(** ** What the relation loop hands over, and what it leaves behind *)

Lemma relation_body_run applier rel w0 :
  ∃ e, (r ← make_object (SymbolRelationValue rel);
        continue ← call applier r; mret continue) w0
       = Some (ev_ret e, world_after applier e, [e])
       ∧ wraps_and_calls applier (SymbolRelationValue rel) w0 e.
Proof.
  pose proof (make_object_run (SymbolRelationValue rel) w0) as Hmk.
  set (h := new_address (mem w0)) in *. set (wb := World _ _) in Hmk.
  exists (ReceiverCall h wb (applier h wb).1).
  split; [|by exists h, wb].
  rewrite (bind_run_silent _ _ _ _ _ Hmk). unfold call, mbind, M_bind. simpl.
  by destruct (applier h wb).
Qed.

(** The relations of an occurrence reach the applier in the order in which
    the occurrence stores them, one per invocation: the handle of the
    [j]-th invocation reads back the roles and the symbol of the [j]-th
    relation, and a run that was not stopped has gone through all of
    them. *)
Theorem relations_are_streamed_in_order occur RefCount o applier w :
  mem w !! occur = Some (IndexStoreDBObject RefCount (SymbolOccurrenceRef o)) →
  ∃ result w' log,
    indexstoredb_symbol_occurrence_relations occur applier w
      = Some (result, w', log)
    ∧ (∀ j e, log !! j = Some e →
         ∃ rel h wb,
           SymbolOccurrence.getRelations o !! j = Some rel
           ∧ e = ReceiverCall h wb (applier h wb).1
           ∧ indexstoredb_symbol_relation_get_roles h wb
             = Some (SymbolRelation.getRoles rel, wb, [])
           ∧ describe_and_release
               (indexstoredb_symbol_relation_get_symbol h) wb
             = Some (symbol_description (SymbolRelation.getSymbol rel), wb, []))
    ∧ (result = true →
       length log = length (SymbolOccurrence.getRelations o)).
Proof.
  intros Hocc. unfold indexstoredb_symbol_occurrence_relations.
  rewrite (with_occurrence_run _ _ _ _ _ Hocc).
  destruct (relation_stream_run (SymbolOccurrence.getRelations o) applier w)
    as (result & w' & log & Hrun & Hstop & Hev & _).
  exists result, w', log. split; [done|]. split.
  - intros j e Hj.
    destruct (Hev j e Hj) as (rel & Hrel & h & wb & Hmk & ->).
    apply make_object_owned in Hmk as (_ & _ & [Hnn Hh] & _).
    exists rel, h, wb. split; [done|]. split; [done|]. split.
    + unfold indexstoredb_symbol_relation_get_roles.
      by rewrite (bind_run_silent _ _ _ _ _
                    (as_SymbolRelation_run _ _ _ _ Hh)).
    + apply describe_fresh_symbol. by eapply relation_get_symbol_run.
  - by destruct Hstop as (_ & _ & _ & Hlen & _).
Qed.

Lemma range_for_released {A} (wrap : A → payload) receiver
    (body : A → M bool) (xs : list A) w :
  (∀ x w0, ∃ e, body x w0 = Some (ev_ret e, world_after receiver e, [e])
                ∧ wraps_and_calls receiver (wrap x) w0 e) →
  (∀ h value wb, owned_once h value wb →
                 mem (receiver h wb).2 = delete h (mem wb)) →
  ∃ result w' log,
    range_for xs body w = Some (result, w', log) ∧ mem w' = mem w.
Proof.
  intros Hbody Hrelease. revert w. induction xs as [|x xs IH]; intros w.
  - by exists true, w, [].
  - destruct (Hbody x w) as (e & He & h & wb & Hmk & ->). simpl.
    rewrite (bind_run _ _ _ _ _ _ He).
    apply make_object_owned in Hmk as (_ & Hfree & Hown & Hmem & _).
    assert (Hback : mem (receiver h wb).2 = mem w).
    { rewrite (Hrelease _ _ _ Hown), Hmem. by apply delete_insert_id. }
    simpl. destruct (receiver h wb).1.
    + destruct (IH (receiver h wb).2) as (result & w' & log & Hrun & Hw').
      rewrite Hrun. eexists _, _, _. split; [done|]. congruence.
    + by eexists _, _, _.
Qed.

Lemma range_for_kept {A} (wrap : A → payload) receiver
    (body : A → M bool) (xs : list A) w :
  (∀ x w0, ∃ e, body x w0 = Some (ev_ret e, world_after receiver e, [e])
                ∧ wraps_and_calls receiver (wrap x) w0 e) →
  (∀ h wb, mem (receiver h wb).2 = mem wb) →
  ∃ result w' log,
    range_for xs body w = Some (result, w', log)
    ∧ (∀ p c, mem w !! p = Some c → mem w' !! p = Some c)
    ∧ size (mem w') = (size (mem w) + length log)%nat
    ∧ Forall (λ e, ∃ h wb r x,
                e = ReceiverCall h wb r
                ∧ mem w !! h = None
                ∧ mem w' !! h = Some (IndexStoreDBObject 1 (wrap x))) log.
Proof.
  intros Hbody Hkeep. revert w. induction xs as [|x xs IH]; intros w.
  - exists true, w, []. repeat split; simpl; [done|lia|constructor].
  - destruct (Hbody x w) as (e & He & h & wb & Hmk & ->). simpl.
    rewrite (bind_run _ _ _ _ _ _ He).
    apply make_object_owned in Hmk as (_ & Hfree & [_ Hh] & Hmem & _).
    assert (Hafter : mem (receiver h wb).2
                     = <[h := IndexStoreDBObject 1 (wrap x)]> (mem w))
      by (by rewrite Hkeep).
    assert (Hgrow : ∀ p c, mem w !! p = Some c →
                           mem (receiver h wb).2 !! p = Some c).
    { intros p c Hp. rewrite Hafter, lookup_insert_ne; [done|]. congruence. }
    simpl. destruct (receiver h wb).1.
    + destruct (IH (receiver h wb).2)
        as (result & w' & log & Hrun & Hsub & Hsize & Hall).
      rewrite Hrun. eexists _, _, _. split; [done|]. split; [|split].
      * intros p c Hp. by apply Hsub, Hgrow.
      * rewrite Hsize, Hafter, map_size_insert_None by done. simpl. lia.
      * constructor.
        { exists h, wb, true, x. split; [done|]. split; [done|].
          apply Hsub. rewrite Hafter. apply lookup_insert_eq. }
        eapply Forall_impl; [exact Hall|]. simpl.
        intros e' (h' & wb' & r' & x' & -> & Hnone & Hsome).
        exists h', wb', r', x'. split; [done|]. split; [|done].
        destruct (mem w !! h') eqn:Hw; [|done].
        apply Hgrow in Hw. congruence.
    + eexists _, _, _. split; [done|]. split; [done|]. split.
      * rewrite Hafter, map_size_insert_None by done. simpl. lia.
      * constructor; [|constructor].
        exists h, wb, false, x. split; [done|]. split; [done|].
        rewrite Hafter. apply lookup_insert_eq.
Qed.

(** If the applier releases each relation handle it is given and does
    nothing else to the heap, [indexstoredb_symbol_occurrence_relations]
    leaves the heap as it found it. *)
Theorem released_relations_leave_nothing occur RefCount o applier w :
  mem w !! occur = Some (IndexStoreDBObject RefCount (SymbolOccurrenceRef o)) →
  (∀ h value wb, owned_once h value wb →
                 mem (applier h wb).2 = delete h (mem wb)) →
  ∃ result w' log,
    indexstoredb_symbol_occurrence_relations occur applier w
      = Some (result, w', log)
    ∧ mem w' = mem w.
Proof.
  intros Hocc Hrelease. unfold indexstoredb_symbol_occurrence_relations.
  rewrite (with_occurrence_run _ _ _ _ _ Hocc).
  apply (range_for_released SymbolRelationValue applier); [|done].
  intros rel w0. apply relation_body_run.
Qed.

(** If the applier leaves the heap alone (it keeps the handles, or drops
    them), every invocation of [indexstoredb_symbol_occurrence_relations]
    leaves one more object behind: the heap grows by exactly one cell per
    invocation, each at an address that was unused before and holding a
    relation with count 1, and no cell that was there is changed or
    removed. *)
Theorem kept_relations_stay_allocated occur RefCount o applier w :
  mem w !! occur = Some (IndexStoreDBObject RefCount (SymbolOccurrenceRef o)) →
  (∀ h wb, mem (applier h wb).2 = mem wb) →
  ∃ result w' log,
    indexstoredb_symbol_occurrence_relations occur applier w
      = Some (result, w', log)
    ∧ (∀ p c, mem w !! p = Some c → mem w' !! p = Some c)
    ∧ size (mem w') = (size (mem w) + length log)%nat
    ∧ Forall (λ e, ∃ h wb r rel,
                e = ReceiverCall h wb r
                ∧ mem w !! h = None
                ∧ mem w' !! h
                  = Some (IndexStoreDBObject 1 (SymbolRelationValue rel)))
             log.
Proof.
  intros Hocc Hkeep. unfold indexstoredb_symbol_occurrence_relations.
  rewrite (with_occurrence_run _ _ _ _ _ Hocc).
  apply (range_for_kept SymbolRelationValue applier); [|done].
  intros rel w0. apply relation_body_run.
Qed.

Lemma release_each_releases h value (wb : @world U) :
  owned_once h value wb → mem (release_each h wb).2 = delete h (mem wb).
Proof.
  intros Hown. unfold release_each. by rewrite (release_owned _ _ _ Hown).
Qed.

(** ** What the index queries leave behind *)

Lemma occurrence_stream_released (matches : list SymbolOccurrence.t)
    receiver w :
  (∀ h value wb, owned_once h value wb →
                 mem (receiver h wb).2 = delete h (mem wb)) →
  ∃ result w' log,
    range_for matches (forward_occurrence receiver) w = Some (result, w', log)
    ∧ mem w' = mem w.
Proof.
  intros Hrelease.
  apply (range_for_released SymbolOccurrenceRef receiver); [|done].
  intros o w0. apply forward_run.
Qed.

Lemma range_for_names_untouched (names : list string) receiver w :
  (∀ s wb, mem (receiver s wb).2 = mem wb) →
  ∃ result w' log,
    range_for names (call_name receiver) w = Some (result, w', log)
    ∧ mem w' = mem w.
Proof.
  intros Hkeep. revert w. induction names as [|name names IH]; intros w.
  - by exists true, w, [].
  - assert (Hcall : call_name receiver name w
                    = Some ((receiver name w).1, (receiver name w).2,
                            [NameReceiverCall name w (receiver name w).1])).
    { unfold call_name. by destruct (receiver name w). }
    simpl. rewrite (bind_run _ _ _ _ _ _ Hcall).
    pose proof (Hkeep name w) as Hw.
    destruct (receiver name w).1.
    + destruct (IH (receiver name w).2) as (result & w' & log & Hrun & Hw').
      rewrite Hrun. eexists _, _, _. split; [done|]. congruence.
    + by eexists _, _, _.
Qed.

(** Each of the five occurrence queries hands its results over with one
    reference each and keeps none: if the receiver releases every handle it
    is given and does nothing else to the heap, the query leaves the heap
    as it found it, the index object included.
    [indexstoredb_index_symbol_names] passes strings, not handles: with a
    receiver that leaves the heap alone it leaves the heap as it found it.
    (The loop inside [IndexSystem] is the one modelled above.) *)
Theorem released_results_leave_nothing index RefCount i receiver names w :
  mem w !! index = Some (IndexStoreDBObject RefCount (IndexSystemRef i)) →
  (∀ h value wb, owned_once h value wb →
                 mem (receiver h wb).2 = delete h (mem wb)) →
  (∀ s wb, mem (names s wb).2 = mem wb) →
  (∀ usr roles, ∃ result w' log,
     indexstoredb_index_symbol_occurrences_by_usr index usr roles receiver w
       = Some (result, w', log) ∧ mem w' = mem w)
  ∧ (∀ usr roles, ∃ result w' log,
       indexstoredb_index_related_symbol_occurrences_by_usr index usr roles
         receiver w = Some (result, w', log) ∧ mem w' = mem w)
  ∧ (∀ path line utf8Column roles, ∃ result w' log,
       indexstoredb_index_symbol_occurrences_at_location index path line
         utf8Column roles receiver w = Some (result, w', log)
       ∧ mem w' = mem w)
  ∧ (∀ symbolName, ∃ result w' log,
       indexstoredb_index_canonical_symbol_occurences_by_name index symbolName
         receiver w = Some (result, w', log) ∧ mem w' = mem w)
  ∧ (∀ pattern anchorStart anchorEnd subsequence ignoreCase,
     ∃ result w' log,
       indexstoredb_index_canonical_symbol_occurences_containing_pattern index
         pattern anchorStart anchorEnd subsequence ignoreCase receiver w
         = Some (result, w', log) ∧ mem w' = mem w)
  ∧ (∃ result w' log,
       indexstoredb_index_symbol_names index names w = Some (result, w', log)
       ∧ mem w' = mem w).
Proof.
  intros Hindex Hrelease Hkeep.
  split; [|split; [|split; [|split; [|split]]]].
  - intros usr roles. unfold indexstoredb_index_symbol_occurrences_by_usr.
    rewrite (with_index_run _ _ _ _ _ Hindex).
    by apply occurrence_stream_released.
  - intros usr roles.
    unfold indexstoredb_index_related_symbol_occurrences_by_usr.
    rewrite (with_index_run _ _ _ _ _ Hindex).
    by apply occurrence_stream_released.
  - intros path line utf8Column roles.
    unfold indexstoredb_index_symbol_occurrences_at_location.
    rewrite (with_index_run _ _ _ _ _ Hindex).
    by apply occurrence_stream_released.
  - intros symbolName.
    unfold indexstoredb_index_canonical_symbol_occurences_by_name.
    rewrite (with_index_run _ _ _ _ _ Hindex).
    by apply occurrence_stream_released.
  - intros pattern anchorStart anchorEnd subsequence ignoreCase.
    unfold indexstoredb_index_canonical_symbol_occurences_containing_pattern.
    rewrite (with_index_run _ _ _ _ _ Hindex).
    by apply occurrence_stream_released.
  - unfold indexstoredb_index_symbol_names.
    rewrite (with_index_run _ _ _ _ _ Hindex).
    by apply range_for_names_untouched.
Qed.

(** ** What the small calls never do *)

Lemma bind_fault_none {A B} (m : M A) (f : A → M B) w :
  m w = None → (m ≫= f) w = None.
Proof. intros H. unfold mbind, M_bind. by rewrite H. Qed.

Lemma bind_reads {A B} (m : M A) (f : A → M B) :
  (∀ w r w' log, m w = Some (r, w', log) → w' = w ∧ log = []) →
  (∀ a w r w' log, f a w = Some (r, w', log) → w' = w ∧ log = []) →
  ∀ w r w' log, (m ≫= f) w = Some (r, w', log) → w' = w ∧ log = [].
Proof.
  intros Hm Hf w r w' log. unfold mbind, M_bind.
  destruct (m w) as [[[a w1] l1]|] eqn:Em; [|done].
  destruct (f a w1) as [[[b w2] l2]|] eqn:Ef; [|done].
  intros [= <- <- <-].
  destruct (Hm _ _ _ _ Em) as [-> ->]. by destruct (Hf _ _ _ _ _ Ef) as [-> ->].
Qed.

Lemma mret_reads {A} (a : A) w r w' log :
  (mret a : M A) w = Some (r, w', log) → w' = w ∧ log = [].
Proof. by intros [= <- <- <-]. Qed.

Lemma value_of_reads obj w r w' log :
  value_of obj w = Some (r, w', log) → w' = w ∧ log = [].
Proof.
  revert w r w' log. apply bind_reads.
  - intros w r w' log. unfold load. by destruct (mem w !! obj); intros [= <- <- <-].
  - intros [] w r w' log; first [apply mret_reads | done].
Qed.

Lemma as_Symbol_reads symbol w r w' log :
  as_Symbol symbol w = Some (r, w', log) → w' = w ∧ log = [].
Proof.
  revert w r w' log. apply bind_reads; [apply value_of_reads|].
  intros [] w r w' log; first [apply mret_reads | done].
Qed.

Lemma as_SymbolOccurrence_reads occur w r w' log :
  as_SymbolOccurrence occur w = Some (r, w', log) → w' = w ∧ log = [].
Proof.
  revert w r w' log. apply bind_reads; [apply value_of_reads|].
  intros [] w r w' log; first [apply mret_reads | done].
Qed.

Lemma as_SymbolRelation_reads relation w r w' log :
  as_SymbolRelation relation w = Some (r, w', log) → w' = w ∧ log = [].
Proof.
  revert w r w' log. apply bind_reads; [apply value_of_reads|].
  intros [] w r w' log; first [apply mret_reads | done].
Qed.

Lemma as_SymbolLocation_reads loc w r w' log :
  as_SymbolLocation loc w = Some (r, w', log) → w' = w ∧ log = [].
Proof.
  revert w r w' log. apply bind_reads; [apply as_SymbolOccurrence_reads|].
  intros o w r w' log. apply mret_reads.
Qed.

(** The reading accessors only read: whenever one of them returns, the
    world is the one it was called in and no block was invoked. *)
Theorem reading_accessors_change_nothing w :
  (∀ symbol r w' log,
     indexstoredb_symbol_usr symbol w = Some (r, w', log) → w' = w ∧ log = [])
  ∧ (∀ symbol r w' log,
       indexstoredb_symbol_name symbol w = Some (r, w', log) →
       w' = w ∧ log = [])
  ∧ (∀ symbol r w' log,
       indexstoredb_symbol_kind symbol w = Some (r, w', log) →
       w' = w ∧ log = [])
  ∧ (∀ relation r w' log,
       indexstoredb_symbol_relation_get_roles relation w = Some (r, w', log) →
       w' = w ∧ log = [])
  ∧ (∀ occur r w' log,
       indexstoredb_symbol_occurrence_roles occur w = Some (r, w', log) →
       w' = w ∧ log = [])
  ∧ (∀ occur r w' log,
       indexstoredb_symbol_occurrence_location occur w = Some (r, w', log) →
       w' = w ∧ log = [])
  ∧ (∀ loc r w' log,
       indexstoredb_symbol_location_path loc w = Some (r, w', log) →
       w' = w ∧ log = [])
  ∧ (∀ loc r w' log,
       indexstoredb_symbol_location_is_system loc w = Some (r, w', log) →
       w' = w ∧ log = [])
  ∧ (∀ loc r w' log,
       indexstoredb_symbol_location_line loc w = Some (r, w', log) →
       w' = w ∧ log = [])
  ∧ (∀ loc r w' log,
       indexstoredb_symbol_location_column_utf8 loc w = Some (r, w', log) →
       w' = w ∧ log = [])
  ∧ (∀ error r w' log,
       indexstoredb_error_get_description error w = Some (r, w', log) →
       w' = w ∧ log = []).
Proof.
  repeat apply conj; intros x;
    (apply bind_reads;
     [ first [ apply as_Symbol_reads | apply as_SymbolRelation_reads
             | apply as_SymbolOccurrence_reads | apply as_SymbolLocation_reads
             | intros w0 r w' log; unfold load;
               by destruct (mem w0 !! x); intros [= <- <- <-] ]
     | intros a w0 r w' log;
       first [ apply mret_reads | destruct a; first [apply mret_reads | done] ] ]).
Qed.

Lemma Retain_inv obj w r w' log :
  Retain obj w = Some (r, w', log) →
  ∃ RefCount value, mem w !! obj = Some (IndexStoreDBObject RefCount value).
Proof.
  unfold Retain, load, mbind, M_bind.
  destruct (mem w !! obj) as [[RefCount value|message|contents]|]; try done.
  eauto.
Qed.

Lemma Release_inv obj w r w' log :
  Release obj w = Some (r, w', log) →
  ∃ RefCount value, mem w !! obj = Some (IndexStoreDBObject RefCount value).
Proof.
  unfold Release, load, mbind, M_bind.
  destruct (mem w !! obj) as [[RefCount value|message|contents]|]; try done.
  eauto.
Qed.

(** [indexstoredb_retain], [indexstoredb_release] and
    [indexstoredb_error_dispose] act on the one cell they are given:
    whenever one of them returns, every other address holds what it held,
    the caller's state is untouched and no block was invoked; [retain]
    returns its argument and never removes a cell. *)
Theorem handle_calls_touch_one_cell w :
  (∀ obj r w' log,
     indexstoredb_retain obj w = Some (r, w', log) →
     r = obj ∧ log = [] ∧ user w' = user w
     ∧ (∀ p, p ≠ obj → mem w' !! p = mem w !! p)
     ∧ (is_Some (mem w !! obj) → is_Some (mem w' !! obj)))
  ∧ (∀ obj r w' log,
       indexstoredb_release obj w = Some (r, w', log) →
       log = [] ∧ user w' = user w
       ∧ (∀ p, p ≠ obj → mem w' !! p = mem w !! p))
  ∧ (∀ error r w' log,
       indexstoredb_error_dispose error w = Some (r, w', log) →
       log = [] ∧ user w' = user w
       ∧ (∀ p, p ≠ error → mem w' !! p = mem w !! p)).
Proof.
  split; [|split].
  - intros obj r w' log. unfold indexstoredb_retain.
    destruct (decide (obj ≠ nullptr)) as [Hnn|Hnull].
    + destruct (Retain obj w) as [[[[] w1] l1]|] eqn:ER;
        [|by rewrite (bind_fault_none _ _ _ ER)].
      destruct (Retain_inv _ _ _ _ _ ER) as (RefCount & value & E).
      rewrite (bind_run_silent _ _ _ _ _ (Retain_run _ _ _ _ E)).
      intros [= <- <- <-]. simpl. repeat split; try done.
      * intros p Hp. by rewrite lookup_insert_ne.
      * intros _. rewrite lookup_insert_eq. eauto.
    + intros [= <- <- <-]. by repeat split.
  - intros obj r w' log. unfold indexstoredb_release.
    destruct (decide (obj ≠ nullptr)) as [Hnn|Hnull].
    + intros ER. destruct (Release_inv _ _ _ _ _ ER) as (RefCount & value & E).
      rewrite (Release_run _ _ _ _ E) in ER. injection ER as <- <-. simpl.
      repeat split; try done. intros p Hp.
      destruct (decide (RefCount = 1));
        [by rewrite lookup_delete_ne | by rewrite lookup_insert_ne].
    + intros [= <- <- <-]. by repeat split.
  - intros error r w' log. unfold indexstoredb_error_dispose.
    destruct (decide (error ≠ nullptr)) as [Hnn|Hnull].
    + destruct (mem w !! error) as [[RefCount value|message|contents]|] eqn:E.
      * by rewrite (bind_run_silent _ _ _ _ _ (load_run _ _ _ E)).
      * rewrite (dispose_run_cell _ _ _ E). intros [= <- <- <-]. simpl.
        repeat split; try done. intros p Hp. by rewrite lookup_delete_ne.
      * by rewrite (bind_run_silent _ _ _ _ _ (load_run _ _ _ E)).
      * unfold load, mbind, M_bind. by rewrite E.
    + intros [= <- <- <-]. by repeat split.
Qed.

End FacadeFurther.

(** ** The facade on the small index *)

#[local] Existing Instance first_fit.

(** The end-to-end scenario of the specification (section 8), with the
    allocator that hands out the least unused address. *)
Example by_usr_definition_only :
  Scenario.summary
    (indexstoredb_index_symbol_occurrences_by_usr (allocator := first_fit)
       1%N "c:@F@foo" 2%N Scenario.count_all Scenario.start)
  = Some (true, 1%nat, [6%N]).
Proof. by vm_compute. Qed.

Example by_usr_no_mask :
  Scenario.summary
    (indexstoredb_index_symbol_occurrences_by_usr (allocator := first_fit)
       1%N "c:@F@foo" 0%N Scenario.count_all Scenario.start)
  = Some (true, 2%nat, [6%N; 7%N]).
Proof. by vm_compute. Qed.

Example by_usr_stopped :
  Scenario.summary
    (indexstoredb_index_symbol_occurrences_by_usr (allocator := first_fit)
       1%N "c:@F@foo" 0%N Scenario.stop_at_once Scenario.start)
  = Some (false, 1%nat, [6%N]).
Proof. by vm_compute. Qed.

Example at_location_reference :
  Scenario.summary
    (indexstoredb_index_symbol_occurrences_at_location (allocator := first_fit)
       1%N "b.c" 10 1 0%N Scenario.count_all Scenario.start)
  = Some (true, 1%nat, [6%N]).
Proof. by vm_compute. Qed.

Example relations_stopped :
  Scenario.summary
    (indexstoredb_symbol_occurrence_relations (allocator := first_fit)
       2%N Scenario.stop_at_once Scenario.start)
  = Some (false, 1%nat, [6%N]).
Proof. by vm_compute. Qed.

Example dead_handle_faults :
  indexstoredb_symbol_occurrence_relations (allocator := first_fit)
    9%N Scenario.count_all Scenario.start = None.
Proof. by vm_compute. Qed.

(** ** Instances of the theorems on the small index *)


Lemma role_mask_filters_witness :
  streams_masked
    (λ o, IndexSystem.has_usr "c:@F@foo" (SymbolOccurrence.getSymbol o))
    0%N (IndexSystem.occurrences Scenario.index) Scenario.stop_at_once
    (indexstoredb_index_symbol_occurrences_by_usr
       1%N "c:@F@foo" 0%N Scenario.stop_at_once Scenario.start).
Proof.
  apply (proj1 (role_mask_filters
                  1%N 1 Scenario.index 0%N Scenario.stop_at_once
                  Scenario.start eq_refl)).
Defined.

Lemma by_usr_streams_that_usr_witness :
  ∃ result w' log,
    indexstoredb_index_symbol_occurrences_by_usr
      1%N "c:@F@foo" 0%N Scenario.count_all Scenario.start
    = Some (result, w', log)
    ∧ Forall (λ e, streamed_usr e "c:@F@foo") log.
Proof.
  apply (by_usr_streams_that_usr
           1%N 1 Scenario.index "c:@F@foo" 0%N Scenario.count_all
           Scenario.start eq_refl).
Defined.

Lemma symbol_kind_never_using_witness :
  indexstoredb_symbol_kind 3%N Scenario.start
  = Some (INDEXSTOREDB_SYMBOL_KIND_UNKNOWN, Scenario.start, []).
Proof.
  apply (proj1 (symbol_kind_never_using
                  3%N 2 Scenario.bar Scenario.start eq_refl)).
Defined.




(** A failed creation with an [error] variable, run: the variable then
    points to an error object with the text that [IndexSystem::create]
    left; a failed creation without one changes nothing. *)
Example create_fails_with_message :
  Scenario.result_of
    ((h ← indexstoredb_index_create Scenario.create EmptyString "db"
            (λ _ w, (nullptr, w)) false false 5%N;
      c ← load 5%N;
      match c with
      | ErrorVariable p =>
          msg ← indexstoredb_error_get_description p; mret (h, msg)
      | _ => fault
      end) Scenario.start)
  = Some (nullptr, "no store path"%string).
Proof. by vm_compute. Qed.

Example create_fails_without_error_variable :
  indexstoredb_index_create Scenario.create EmptyString "db"
    (λ _ w, (nullptr, w)) false false nullptr Scenario.start
  = Some (nullptr, Scenario.start, []).
Proof. by vm_compute. Qed.

Example load_library_fails_with_message :
  Scenario.result_of
    ((h ← indexstoredb_load_indexstore_library Scenario.load_library
            "libIndexStore.dylib" 5%N;
      c ← load 5%N;
      match c with
      | ErrorVariable p =>
          msg ← indexstoredb_error_get_description p; mret (h, msg)
      | _ => fault
      end) Scenario.start)
  = Some (nullptr, "cannot load"%string).
Proof. by vm_compute. Qed.

(** Two calls of an accessor while the first handle is held give two
    handles; once the first is released its address is free again, and this
    allocator hands it out a second time. *)
Example two_symbol_handles_held :
  Scenario.result_of
    ((s1 ← indexstoredb_symbol_occurrence_symbol 2%N;
      s2 ← indexstoredb_symbol_occurrence_symbol 2%N;
      mret (s1, s2)) Scenario.start)
  = Some (6%N, 7%N).
Proof. by vm_compute. Qed.

Example address_reused_after_release :
  Scenario.result_of
    ((s1 ← indexstoredb_symbol_occurrence_symbol 2%N;
      indexstoredb_release s1;;
      s2 ← indexstoredb_symbol_occurrence_symbol 2%N;
      mret (s1, s2)) Scenario.start)
  = Some (6%N, 6%N).
Proof. by vm_compute. Qed.

(** ** Instances of the further properties *)

Lemma role_set_keeps_its_members_witness :
  Z.testbit
    (role_set_value [ INDEXSTOREDB_SYMBOL_ROLE_DEFINITION;
                      INDEXSTOREDB_SYMBOL_ROLE_REL_CALLEDBY ])
    (role_shift INDEXSTOREDB_SYMBOL_ROLE_REL_CALLEDBY)
  = bool_decide
      (INDEXSTOREDB_SYMBOL_ROLE_REL_CALLEDBY
       ∈ [ INDEXSTOREDB_SYMBOL_ROLE_DEFINITION;
           INDEXSTOREDB_SYMBOL_ROLE_REL_CALLEDBY ])
  ∧ 0 ≤ role_set_value [ INDEXSTOREDB_SYMBOL_ROLE_DEFINITION;
                         INDEXSTOREDB_SYMBOL_ROLE_REL_CALLEDBY ] < 2 ^ 19.
Proof.
  apply (role_set_keeps_its_members
           [ INDEXSTOREDB_SYMBOL_ROLE_DEFINITION;
             INDEXSTOREDB_SYMBOL_ROLE_REL_CALLEDBY ]
           INDEXSTOREDB_SYMBOL_ROLE_REL_CALLEDBY).
  - apply (bool_decide_unpack _). vm_compute. exact I.
  - discriminate.
Defined.

Lemma retains_and_releases_balance_witness :
  (times 2 (indexstoredb_retain 3%N);; times 2 (indexstoredb_release 3%N))
    Scenario.start
  = Some (tt, Scenario.start, []).
Proof.
  apply (retains_and_releases_balance 2 3%N 2 (SymbolRef Scenario.bar)
           Scenario.start ltac:(discriminate) eq_refl ltac:(lia)).
Defined.

Lemma nth_release_destroys_witness :
  times 2 (indexstoredb_release 3%N) Scenario.start
  = Some (tt, World (delete 3%N (mem Scenario.start)) (user Scenario.start),
          []).
Proof.
  apply (proj2 (nth_release_destroys 1 3%N (SymbolRef Scenario.bar)
                  Scenario.start ltac:(discriminate) eq_refl)).
Defined.

Lemma failed_create_then_dispose_witness :
  ∃ e,
    e ≠ nullptr
    ∧ mem Scenario.start !! e = None
    ∧ (h ← indexstoredb_index_create Scenario.create EmptyString "db"
             (provide nullptr) false false 5%N;
       c ← load 5%N;
       match c with
       | ErrorVariable e =>
           msg ← indexstoredb_error_get_description e;
           indexstoredb_error_dispose e;;
           mret (h, msg)
       | _ => fault
       end) Scenario.start
      = Some ((nullptr, "no store path"%string),
              World (<[5%N := ErrorVariable e]> (mem Scenario.start))
                    (user Scenario.start), []).
Proof.
  apply (failed_create_then_dispose Scenario.create EmptyString "db"
           (provide nullptr) false false 5%N "no store path" Scenario.start
           nullptr Scenario.start eq_refl ltac:(discriminate) eq_refl).
Defined.

Lemma construct_then_release_round_trip_witness :
  ∃ h w',
    indexstoredb_index_create Scenario.create "store" "db" (provide nullptr)
      false false nullptr Scenario.start = Some (h, w', [])
    ∧ owned_once h (IndexSystemRef Scenario.index) w'
    ∧ mem Scenario.start !! h = None
    ∧ indexstoredb_release h w' = Some (tt, Scenario.start, []).
Proof.
  apply (proj1 (construct_then_release_round_trip
                  Scenario.create load_any_library
                  "store" "db" (provide nullptr) false false nullptr
                  Scenario.index EmptyString Scenario.start
                  "libIndexStore.dylib" nullptr
                  {| dylibPath := "libIndexStore.dylib" |} EmptyString
                  Scenario.start Scenario.start eq_refl eq_refl)).
Defined.

Lemma provided_library_is_found_witness :
  ∃ h w',
    indexstoredb_load_indexstore_library load_any_library
      "libIndexStore.dylib" nullptr Scenario.start = Some (h, w', [])
    ∧ (∀ callback storePath w2,
         callback storePath w' = (h, w2) →
         mem w2 !! h = mem w' !! h →
         getLibraryForStorePath callback storePath w'
         = Some (Some {| dylibPath := "libIndexStore.dylib" |}, w2, []))
    ∧ (∀ callback storePath w2,
         callback storePath w' = (nullptr, w2) →
         getLibraryForStorePath callback storePath w' = Some (None, w2, [])).
Proof.
  apply (provided_library_is_found load_any_library "libIndexStore.dylib"
           nullptr {| dylibPath := "libIndexStore.dylib" |} EmptyString
           Scenario.start Scenario.start eq_refl).
Defined.


Lemma location_is_read_not_owned_witness :
  (loc ← indexstoredb_symbol_occurrence_location 2%N;
   describe_location loc) Scenario.start
  = Some (("a.c"%string, false, 3, 5), Scenario.start, []).
Proof.
  apply (proj1 (location_is_read_not_owned 2%N 1 Scenario.foo_definition
                  Scenario.start ltac:(discriminate) eq_refl ltac:(lia))).
Defined.

Lemma relations_are_streamed_in_order_witness :
  ∃ result w' log,
    indexstoredb_symbol_occurrence_relations 2%N Scenario.count_all
      Scenario.start = Some (result, w', log)
    ∧ (∀ j e, log !! j = Some e →
         ∃ rel h wb,
           SymbolOccurrence.getRelations Scenario.foo_definition !! j
             = Some rel
           ∧ e = ReceiverCall h wb (Scenario.count_all h wb).1
           ∧ indexstoredb_symbol_relation_get_roles h wb
             = Some (SymbolRelation.getRoles rel, wb, [])
           ∧ describe_and_release
               (indexstoredb_symbol_relation_get_symbol h) wb
             = Some (symbol_description (SymbolRelation.getSymbol rel), wb, []))
    ∧ (result = true →
       length log
       = length (SymbolOccurrence.getRelations Scenario.foo_definition)).
Proof.
  apply (relations_are_streamed_in_order 2%N 1 Scenario.foo_definition
           Scenario.count_all Scenario.start eq_refl).
Defined.

Lemma released_relations_leave_nothing_witness :
  ∃ result w' log,
    indexstoredb_symbol_occurrence_relations 2%N release_each Scenario.start
      = Some (result, w', log)
    ∧ mem w' = mem Scenario.start.
Proof.
  apply (released_relations_leave_nothing 2%N 1 Scenario.foo_definition
           release_each Scenario.start eq_refl release_each_releases).
Defined.

Lemma kept_relations_stay_allocated_witness :
  ∃ result w' log,
    indexstoredb_symbol_occurrence_relations 2%N keep_each Scenario.start
      = Some (result, w', log)
    ∧ (∀ p c, mem Scenario.start !! p = Some c → mem w' !! p = Some c)
    ∧ size (mem w') = (size (mem Scenario.start) + length log)%nat
    ∧ Forall (λ e, ∃ h wb r rel,
                e = ReceiverCall h wb r
                ∧ mem Scenario.start !! h = None
                ∧ mem w' !! h
                  = Some (IndexStoreDBObject 1 (SymbolRelationValue rel)))
             log.
Proof.
  apply (kept_relations_stay_allocated 2%N 1 Scenario.foo_definition
           keep_each Scenario.start eq_refl (λ _ _, eq_refl)).
Defined.

Lemma released_results_leave_nothing_witness :
  ∃ result w' log,
    indexstoredb_index_symbol_occurrences_by_usr 1%N "c:@F@foo" 0%N
      release_each Scenario.start = Some (result, w', log)
    ∧ mem w' = mem Scenario.start.
Proof.
  apply (proj1 (released_results_leave_nothing 1%N 1 Scenario.index
                  release_each (λ _ w, (true, w)) Scenario.start eq_refl
                  release_each_releases (λ _ _, eq_refl))
           "c:@F@foo" 0%N).
Defined.

(** The two runs, evaluated: both relations are handed over; with the
    releasing applier the heap has its five cells afterwards, with the
    keeping one it has seven. *)
Example relations_released_run :
  (λ r, (r.1.1, size (mem r.1.2), length r.2))
    <$> indexstoredb_symbol_occurrence_relations 2%N release_each
          Scenario.start
  = Some (true, 5%nat, 2%nat).
Proof. by vm_compute. Qed.

Example relations_kept_run :
  (λ r, (r.1.1, size (mem r.1.2), length r.2))
    <$> indexstoredb_symbol_occurrence_relations 2%N keep_each
          Scenario.start
  = Some (true, 7%nat, 2%nat).
Proof. by vm_compute. Qed.

(** A stored line that an [int] cannot hold does not come back as stored;
    the column, which an [int] can hold, does. *)
Example line_beyond_int :
  let occur :=
    SymbolOccurrence.mk Scenario.foo 4%N
      (SymbolLocation.mk "b.c" false 4294967295 7) [] in
  let w :=
    World (<[2%N := IndexStoreDBObject 1 (SymbolOccurrenceRef occur)]>
             Scenario.heap) 0%nat in
  (λ r, r.1.1) <$> describe_location (LocationIn 2%N) w
  = Some ("b.c"%string, false, -1, 7).
Proof. by vm_compute. Qed.
